(** * sparql-benchmark-runner: a shallow embedding of the benchmark core

    The development follows the TypeScript sources module by module:

    - [Metric]     lib/CalculateOptimalTraversalMetric.ts
    - [Runner]     the SparqlBenchmarkRunner class
    - [Aggregator] the ResultAggregatorComunicaQuerySequence class
    - [Loader]     lib/QueryLoaderFile.ts

    JavaScript numbers are doubles. The execution engine holds them as the
    rationals they denote and adds them with the rounding of IEEE 754
    ([Double]); the aggregator, which also squares and takes square roots,
    holds them as reals and takes the arithmetic of the JavaScript engine as
    a parameter ([Aggregator.Arithmetic]). [NaN] is added as a separate
    value where the code can produce it. Objects that the code uses as maps
    are finite maps of their own properties, together with what they
    inherit from [Object.prototype] ([Prototype]). *)

From Stdlib Require Import QArith Qround Qabs Reals Lra Sorted.
From stdpp Require Import gmap strings list fin_maps pretty.

Set Default Proof Using "Type".

(** ** JavaScript numbers that may be NaN *)

Inductive number : Type :=
  | Num (q : Q)
  | NaN.

(** [v + 1] where [v] is the result of an array or object lookup:
    [undefined + 1] is [NaN]. *)
Definition plusOne (v : option Q) : number :=
  match v with
  | Some a => Num (a + 1)
  | None => NaN
  end.

(** [v ? v : 1]: [undefined] and [0] are falsy. *)
Definition orOne (v : option Q) : number :=
  match v with
  | Some w => if Qeq_bool w 0 then Num 1 else Num w
  | None => Num 1
  end.

(** ** A state monad for the trace of calls to the external evaluator *)

Inductive EvaluatorCall : Type :=
  | CallMetricAll
  | CallMetricFirstK (k : Z).

Definition Eval (A : Type) : Type := list EvaluatorCall → A * list EvaluatorCall.

#[global] Instance eval_ret : MRet Eval := λ A a log, (a, log).

#[global] Instance eval_bind : MBind Eval :=
  λ A B f m log, let '(a, log') := m log in f a log'.

Definition invoke {A} (c : EvaluatorCall) (a : A) : Eval A :=
  λ log, (a, log ++ [c]).

(** ** Synchronous code that may throw *)

Inductive Completion (A : Type) : Type :=
  | Normal (a : A)
  | Abrupt (message : string).
Arguments Normal {A} a.
Arguments Abrupt {A} message.

(** ** Plain objects used as maps

    An object created by [{}] or by [JSON.parse] inherits the properties of
    [Object.prototype]. A finite map holds its own properties; [key in o]
    and [o[key]] see the inherited ones as well. The inherited values are
    functions, except [__proto__], which reads as [Object.prototype]
    itself; none of them has a [push] method. *)

Module Prototype.

(** The property names of [Object.prototype]. *)
Definition inherited : list string :=
  ["constructor"; "__defineGetter__"; "__defineSetter__"; "hasOwnProperty";
   "__lookupGetter__"; "__lookupSetter__"; "isPrototypeOf";
   "propertyIsEnumerable"; "toString"; "valueOf"; "__proto__";
   "toLocaleString"].

Definition isInherited (key : string) : bool := bool_decide (key ∈ inherited).

(** [key in o] *)
Definition has {V} (o : gmap string V) (key : string) : bool :=
  bool_decide (is_Some (o !! key)) || isInherited key.

(** [String(Object.prototype[key])] for an inherited [key]. *)
Definition text (key : string) : string :=
  if String.eqb key "__proto__" then "[object Object]"
  else "function "
       +:+ (if String.eqb key "constructor" then "Object" else key)
       +:+ "() { [native code] }".

(** The [TypeError] of calling a method on a value that does not have it. *)
Definition notAFunction (callee : string) : string :=
  "TypeError: " +:+ callee +:+ " is not a function".

End Prototype.

(** ** Doubles

    A finite double is held as the rational it denotes. [round] is the
    rounding of IEEE 754 binary64 to the nearest double, ties to even (53
    significant bits, gradual underflow below 2^-1022). The sums formed
    here are durations in milliseconds; the overflow to [Infinity] beyond
    2^1024 is not modelled. *)

Module Double.
Local Open Scope Q_scope.

(** The integer nearest to [x]; of two equally near ones, the even one. *)
Definition nearestEven (x : Q) : Z :=
  let f := Qfloor x in
  match Qcompare (x - inject_Z f) (1 # 2) with
  | Lt => f
  | Gt => (f + 1)%Z
  | Eq => if Z.even f then f else (f + 1)%Z
  end.

(** The binary exponent of [x]: [2 ^ exponent x <= |x| < 2 ^ (exponent x + 1)]
    for [x] other than 0. *)
Definition exponent (x : Q) : Z :=
  let e := (Z.log2 (Z.abs (Qnum x)) - Z.log2 (Z.pos (Qden x)))%Z in
  if Qle_bool (2 ^ e) (Qabs x) then e else (e - 1)%Z.

(** The distance between the doubles around [x]. *)
Definition ulp (x : Q) : Q := 2 ^ (Z.max (exponent x) (-1022) - 52).

Definition round (x : Q) : Q :=
  if Qeq_bool x 0 then 0 else Qred (inject_Z (nearestEven (x / ulp x)) * ulp x).

(** [x + y] on doubles: the exact sum, rounded. *)
Definition add (x y : Q) : Q := round (x + y).

End Double.

Module Metric.

Inductive topologyType : Type := unweighted | httpRequestTime | documentSize.
Inductive searchType : Type := full | reduced.

Record NodeMetadata : Type := { hasParent : bool }.

Record ITraversalTopology : Type := {
  nodeToIndex : gmap string Q;
  edgeListUnWeighted : list (list Q);
  edgeListRequestTime : list (list Q);
  edgeListDocumentSize : list (list Q);
  edgesInGraph : gmap string Q;
  metadataNode : list NodeMetadata;
  traversalOrder : list string;
  traversalOrderEdges : list (list Q)
}.

(** The value of [nodeToIndex[y] + 1]: a number, or a string when
    [nodeToIndex[y]] is a function or an object. *)
Inductive numberOrString : Type :=
  | ANumber (n : number)
  | AString (s : string).

Record IMetricInput : Type := {
  edgeList : list (list number);
  contributingNodes : list (list numberOrString);
  traversedPath : list (list number);
  numNodes : nat;
  roots : list nat
}.

(** The external evaluator (package optimal-traversal-metric). Its two
    entry points are opaque score functions. *)
Record RunLinkTraversalPerformanceMetrics : Type := {
  runMetricAll :
    list (list number) → list (list numberOrString) → list (list number) →
    list nat → nat → Q;
  runMetricFirstK :
    Z → list (list number) → list (list numberOrString) → list (list number) →
    list nat → nat → searchType →
    option string → option Q → option bool → option Q → Q
}.

Definition convertZeroIndexedToOneIndexed (edgeList : list (list Q))
  : list (list number) :=
  map (λ x : list Q, [plusOne (x !! 0%nat); plusOne (x !! 1%nat); orOne (x !! 2%nat)])
      edgeList.

(** [nodeToIndex[y] + 1]. The object comes from [JSON.parse] (or is [{}]):
    a name that is not one of its own properties reads as [undefined], and
    [undefined + 1] is [NaN], unless the name is inherited from
    [Object.prototype]; the inherited value is then converted to a string
    and ["1"] is appended. *)
Definition indexPlusOne (nodeToIndex : gmap string Q) (y : string) : numberOrString :=
  match nodeToIndex !! y with
  | Some i => ANumber (Num (i + 1))
  | None =>
      if Prototype.isInherited y then AString (Prototype.text y +:+ "1")
      else ANumber NaN
  end.

(** The loop [for (let k = 0; k < nodeMetaData.length; k++)]. *)
Fixpoint collectRoots (k : nat) (nodeMetaData : list NodeMetadata) : list nat :=
  match nodeMetaData with
  | [] => []
  | m :: rest =>
      if hasParent m then collectRoots (S k) rest
      else (k + 1)%nat :: collectRoots (S k) rest
  end.

Definition prepareMetricInput (trackedTopology : ITraversalTopology)
    (contributingDocuments : list (list string)) (metricType : topologyType)
  : IMetricInput :=
  let edgeList :=
    match metricType with
    | unweighted => edgeListUnWeighted trackedTopology
    | httpRequestTime => edgeListRequestTime trackedTopology
    | documentSize => edgeListDocumentSize trackedTopology
    end in
  let edgeList := convertZeroIndexedToOneIndexed edgeList in
  let relevantDocsOneIndexed :=
    map (λ x : list string,
           map (λ y : string, indexPlusOne (nodeToIndex trackedTopology) y) x)
        contributingDocuments in
  let traversalPath := traversalOrderEdges trackedTopology in
  let traversalPathOneIndexed := convertZeroIndexedToOneIndexed traversalPath in
  let nodeMetaData := metadataNode trackedTopology in
  {| edgeList := edgeList;
     contributingNodes := relevantDocsOneIndexed;
     traversedPath := traversalPathOneIndexed;
     numNodes := length nodeMetaData;
     roots := collectRoots 0 nodeMetaData |}.

Section Adapter.
Variable metric : RunLinkTraversalPerformanceMetrics.

Definition calculateMetricAll (metricInput : IMetricInput) : Eval Q :=
  invoke CallMetricAll
    (runMetricAll metric (edgeList metricInput) (contributingNodes metricInput)
       (traversedPath metricInput) (roots metricInput) (numNodes metricInput)).

Definition calculateMetricFirstK (metricInput : IMetricInput) (k : Z)
    (searchType : searchType) (solverInputFileLocation : option string)
    (batchSize : option Q) (allowRandomSampling : option bool)
    (numberSamples : option Q) : Eval Q :=
  invoke (CallMetricFirstK k)
    (runMetricFirstK metric k (edgeList metricInput)
       (contributingNodes metricInput) (traversedPath metricInput)
       (roots metricInput) (numNodes metricInput) searchType
       solverInputFileLocation batchSize allowRandomSampling numberSamples).

Definition calculateMetricAllResults (topology : ITraversalTopology)
    (contributingDocuments : list (list string)) (metricType : topologyType)
  : Eval Q :=
  calculateMetricAll (prepareMetricInput topology contributingDocuments metricType).

(** The body of [for (const k of kToCheck)], with [metricsFirstK]
    threaded as an accumulator. *)
Fixpoint firstKLoop (metricInput : IMetricInput) (searchType : searchType)
    (solverInputFileLocation : option string) (batchSize : option Q)
    (allowRandomSampling : option bool) (numberSamples : option Q)
    (kToCheck : list Z) (metricsFirstK : list Q) : Eval (list Q) :=
  match kToCheck with
  | [] => mret metricsFirstK
  | k :: rest =>
      if (k <? Z.of_nat (length (contributingNodes metricInput)))%Z then
        v ← calculateMetricFirstK metricInput k searchType
              solverInputFileLocation batchSize allowRandomSampling
              numberSamples;
        firstKLoop metricInput searchType solverInputFileLocation batchSize
          allowRandomSampling numberSamples rest (metricsFirstK ++ [v])
      else
        firstKLoop metricInput searchType solverInputFileLocation batchSize
          allowRandomSampling numberSamples rest (metricsFirstK ++ [(-1)%Q])
  end.

Definition calculateMetricFirstKResults (kToCheck : list Z)
    (topology : ITraversalTopology) (contributingDocuments : list (list string))
    (metricType : topologyType) (searchType : searchType)
    (solverInputFileLocation : option string) (batchSize : option Q)
    (allowRandomSampling : option bool) (numberSamples : option Q)
  : Eval (list Q) :=
  let metricInput := prepareMetricInput topology contributingDocuments metricType in
  firstKLoop metricInput searchType solverInputFileLocation batchSize
    allowRandomSampling numberSamples kToCheck [].
(** Specification of one slot: the evaluator's score for [k] when more than
    [k] groups contributed, else the sentinel -1. *)
Definition firstKSlot (input : IMetricInput) (search : searchType)
    (location : option string) (batchSize : option Q) (sampling : option bool)
    (samples : option Q) (k : Z) : Q :=
  if (k <? Z.of_nat (length (contributingNodes input)))%Z then
    runMetricFirstK metric k (edgeList input) (contributingNodes input)
      (traversedPath input) (roots input) (numNodes input) search location batchSize
      sampling samples
  else (-1)%Q.
End Adapter.

End Metric.

(** ** The benchmark execution engine (class SparqlBenchmarkRunner)

    The endpoint, the fetcher and the Node.js event loop are replaced by
    the sequence of callbacks that they deliver for one request. Logging,
    the fixed delays ([sleep]) and the liveness probe ([waitUntilUp]) only
    consume time and never touch the results; they are left out, which
    amounts to an endpoint that answers the probe. *)

Module Runner.
Import Metric.

(** [Record<string, any>]: the metadata object is only stored and handed on. *)
Definition Metadata : Type := list (string * string).

(** The object attached to a stream error as [error.partialOutput]. *)
Record PartialOutput : Type := {
  partialCount : nat;
  partialTime : Q;
  partialTimestamps : list Q;
  partialMetadata : Metadata
}.

Record JsError : Type := {
  message : string;
  partialOutput : option PartialOutput
}.

(** What [executeQuery] resolves with. *)
Record QueryOutput : Type := {
  outCount : nat;
  outTime : Q;
  outTimestamps : list Q;
  outTrackedTopology : ITraversalTopology;
  outContributingDocuments : list (list string);
  outMetadata : Metadata
}.

(** One entry of [IBenchmarkResults]. *)
Record IBenchmarkResult : Type := {
  name : string;
  id : string;
  count : nat;
  time : Q;
  timestamps : list Q;
  error : bool;
  metricsCalculated : list Q;
  metadata : Metadata
}.

(** A result row: either plain bindings, or bindings that carry the
    [_trackedTopology] and [_sourceAttribution] fields (already parsed). *)
Inductive Row : Type :=
  | PlainRow
  | TopologyRow (topology : ITraversalTopology) (sourceAttribution : list string).

(** The callbacks of one request, in the order the event loop runs them.
    [clock] is the value [countTime(hrstart)] returns inside the callback. *)
Inductive StreamEvent : Type :=
  | OnMetadata (readMetadata : Metadata)
  | OnData (data : Row) (clock : Q)
  | OnError (error : JsError) (clock : Q)
  | OnEnd (clock : Q)
  | OnTimeout
  | OnFetchRejected (error : JsError).

(** State of the promise returned by [executeQuery]. *)
Inductive Settled : Type :=
  | Resolved (output : QueryOutput)
  | Rejected (error : JsError)
  | Pending.

Definition emptyTopology : ITraversalTopology :=
  {| nodeToIndex := ∅;
     edgeListUnWeighted := []; edgeListDocumentSize := []; edgeListRequestTime := [];
     edgesInGraph := ∅;
     metadataNode := [];
     traversalOrder := [];
     traversalOrderEdges := [] |}.

(** The variables closed over by the stream callbacks. *)
Record Consumer : Type := {
  cTrackedTopology : ITraversalTopology;
  cContributingDocuments : list (list string);
  cCount : nat;
  cTimestamps : list Q;
  cMetadata : Metadata
}.

Definition newConsumer : Consumer :=
  {| cTrackedTopology := emptyTopology;
     cContributingDocuments := [];
     cCount := 0;
     cTimestamps := [];
     cMetadata := [] |}.

Definition timeoutError : JsError :=
  {| message := "Timeout for running query"; partialOutput := None |}.

(** [if (this.timeout)]: [undefined] and [0] are falsy. *)
Definition timeoutConfigured (timeout : option Q) : bool :=
  match timeout with
  | Some t => negb (Qeq_bool t 0)
  | None => false
  end.

Section Stream.
Variable timestampsRecording : bool.
Variable timeout : option Q.

Definition onData (c : Consumer) (data : Row) (clock : Q) : Consumer :=
  let '(topology, documents) :=
    match data with
    | TopologyRow t attribution => (t, cContributingDocuments c ++ [attribution])
    | PlainRow => (cTrackedTopology c, cContributingDocuments c)
    end in
  {| cTrackedTopology := topology;
     cContributingDocuments := documents;
     cCount := S (cCount c);
     cTimestamps :=
       if timestampsRecording then cTimestamps c ++ [clock] else cTimestamps c;
     cMetadata := cMetadata c |}.

(** The promise of [executeQuery], settled by the first decisive callback:
    the timer (when a timeout is configured), a rejected fetch, the stream's
    [error] or its [end]. *)
Fixpoint consume (c : Consumer) (events : list StreamEvent) : Settled :=
  match events with
  | [] => Pending
  | OnMetadata readMetadata :: rest =>
      consume {| cTrackedTopology := cTrackedTopology c;
                 cContributingDocuments := cContributingDocuments c;
                 cCount := cCount c;
                 cTimestamps := cTimestamps c;
                 cMetadata := readMetadata |} rest
  | OnData data clock :: rest => consume (onData c data clock) rest
  | OnError error clock :: _ =>
      Rejected {| message := message error;
                  partialOutput :=
                    Some {| partialCount := cCount c;
                            partialTime := clock;
                            partialTimestamps := cTimestamps c;
                            partialMetadata := cMetadata c |} |}
  | OnEnd clock :: _ =>
      Resolved {| outCount := cCount c;
                  outTime := clock;
                  outTimestamps := cTimestamps c;
                  outTrackedTopology := cTrackedTopology c;
                  outContributingDocuments := cContributingDocuments c;
                  outMetadata := cMetadata c |}
  | OnTimeout :: rest =>
      if timeoutConfigured timeout then Rejected timeoutError else consume c rest
  | OnFetchRejected error :: _ => Rejected error
  end.
End Stream.

(** A callback that leaves the promise unsettled whatever the options are. *)
Definition isProgress (event : StreamEvent) : bool :=
  match event with
  | OnMetadata _ | OnData _ _ => true
  | _ => false
  end.

(** The number of rows among [events]. *)
Definition isRow (event : StreamEvent) : bool :=
  match event with
  | OnData _ _ => true
  | _ => false
  end.

Definition rowCount (events : list StreamEvent) : nat :=
  length (filter (λ event, isRow event) events).

(** *** Asynchronous methods

    The state threaded through the run: how many requests were sent, and
    which calls the external evaluator received. A method returns, throws,
    or never resumes after an [await]. *)

Record World : Type := {
  (* calls of [executeQuery] so far; liveness probes are not counted *)
  requests : nat;
  evaluatorLog : list EvaluatorCall
}.

Inductive Outcome (A : Type) : Type :=
  | Returned (a : A) (w : World)
  | Thrown (e : JsError) (w : World)
  | Blocked (w : World).
Arguments Returned {A} a w.
Arguments Thrown {A} e w.
Arguments Blocked {A} w.

Definition Async (A : Type) : Type := World → Outcome A.

#[global] Instance async_ret : MRet Async := λ A a w, Returned a w.

#[global] Instance async_bind : MBind Async :=
  λ A B f m w,
    match m w with
    | Returned a w' => f a w'
    | Thrown e w' => Thrown e w'
    | Blocked w' => Blocked w'
    end.

Definition throw {A} (e : JsError) : Async A := λ w, Thrown e w.

Definition tryCatch {A} (body : Async A) (handler : JsError → Async A) : Async A :=
  λ w,
    match body w with
    | Thrown e w' => handler e w'
    | other => other
    end.

(** Run an evaluator computation on the evaluator's call log. *)
Definition evaluate {A} (m : Eval A) : Async A :=
  λ w, let '(a, log) := m (evaluatorLog w) in
       Returned a {| requests := requests w; evaluatorLog := log |}.

Fixpoint foldM {A S} (body : S → A → Async S) (s : S) (xs : list A) : Async S :=
  match xs with
  | [] => mret s
  | x :: rest => s' ← body s x; foldM body s' rest
  end.

(** [TypeError] raised by reading a property of [undefined]. *)
Definition typeError (property : string) : JsError :=
  {| message := "Cannot read properties of undefined (reading '" +:+ property +:+ "')";
     partialOutput := None |}.

(** The local variables of the loop body of [executeQueries] after the
    [try]/[catch]. Destructuring [partialOutput] leaves the two fields it
    does not have [undefined]. *)
Record Measurement : Type := {
  mCount : nat;
  mTime : Q;
  mTimestamps : list Q;
  mTrackedTopology : option ITraversalTopology;
  mContributingDocuments : option (list (list string));
  mMetadata : Metadata;
  errorObject : option JsError
}.

Definition ofOutput (o : QueryOutput) : Measurement :=
  {| mCount := outCount o;
     mTime := outTime o;
     mTimestamps := outTimestamps o;
     mTrackedTopology := Some (outTrackedTopology o);
     mContributingDocuments := Some (outContributingDocuments o);
     mMetadata := outMetadata o;
     errorObject := None |}.

Definition ofError (e : JsError) : Measurement :=
  match partialOutput e with
  | Some p =>
      {| mCount := partialCount p;
         mTime := partialTime p;
         mTimestamps := partialTimestamps p;
         mTrackedTopology := None;
         mContributingDocuments := None;
         mMetadata := partialMetadata p;
         errorObject := Some e |}
  | None =>
      {| mCount := 0;
         mTime := 0;
         mTimestamps := [];
         mTrackedTopology := Some emptyTopology;
         mContributingDocuments := Some [];
         mMetadata := [];
         errorObject := Some e |}
  end.

(** The loop [for (let i = 0; i < length; ++i) entry[i] += timestamps[i]]. *)
Definition combineTimestamps (entry timestamps : list Q) : list Q :=
  foldl (λ (acc : list Q) (i : nat),
           match acc !! i, timestamps !! i with
           | Some a, Some b => <[i := Double.add a b]> acc
           | _, _ => acc
           end)
        entry (seq 0 (length entry `min` length timestamps)).

(** Lines 134-150: create the record of [name + id], or merge into it. *)
Definition store (data : gmap string IBenchmarkResult) (name id : string)
    (m : Measurement) (metricsCalculated : list Q)
  : gmap string IBenchmarkResult :=
  match data !! (name +:+ id) with
  | None =>
      <[name +:+ id :=
          {| name := name; id := id; count := mCount m; time := mTime m;
             timestamps := mTimestamps m;
             error := bool_decide (is_Some (errorObject m));
             metricsCalculated := metricsCalculated;
             metadata := mMetadata m |}]> data
  | Some dataEntry =>
      <[name +:+ id :=
          {| name := Runner.name dataEntry; id := Runner.id dataEntry;
             count := count dataEntry;
             time := Double.add (time dataEntry) (mTime m);
             timestamps := combineTimestamps (timestamps dataEntry) (mTimestamps m);
             error := if errorObject m is Some _ then true else error dataEntry;
             metricsCalculated := Runner.metricsCalculated dataEntry;
             metadata := metadata dataEntry |}]> data
  end.

(** [Math.floor(x / replication)] *)
Definition floorDiv (x : Q) (replication : nat) : Q :=
  inject_Z (Qfloor (x / inject_Z (Z.of_nat replication))).

Definition average (replication : nat) (r : IBenchmarkResult) : IBenchmarkResult :=
  {| name := name r; id := id r; count := count r;
     time := floorDiv (time r) replication;
     timestamps := map (λ t, floorDiv t replication) (timestamps r);
     error := error r;
     metricsCalculated := metricsCalculated r;
     metadata := metadata r |}.

Section Engine.
(** The constructor's options. *)
Variable querySets : list (string * list string).
Variable replication : nat.
Variable warmup : nat.
Variable timestampsRecording : bool.
Variable timeout : option Q.
Variable optimalTraversalMetric : RunLinkTraversalPerformanceMetrics.
(** The endpoint: the callbacks delivered for the n-th request. *)
Variable respond : nat → string → list StreamEvent.

Definition executeQuery (query : string) : Async QueryOutput :=
  λ w,
    let w' := {| requests := S (requests w); evaluatorLog := evaluatorLog w |} in
    match consume timestampsRecording timeout newConsumer (respond (requests w) query) with
    | Resolved output => Returned output w'
    | Rejected error => Thrown error w'
    | Pending => Blocked w'
    end.

(** Lines 114-133: the metric slots of one execution. *)
Definition calculateMetrics (m : Measurement) : Async (list Q) :=
  if bool_decide (0 < mCount m) then
    match mContributingDocuments m with
    | None => throw (typeError "length")
    | Some contributingDocuments =>
        if bool_decide (0 < length contributingDocuments) then
          match mTrackedTopology m with
          | None => throw (typeError "edgeListUnWeighted")
          | Some trackedTopology =>
              metricAll ← evaluate
                (calculateMetricAllResults optimalTraversalMetric trackedTopology
                   contributingDocuments unweighted);
              metricsFirstK ← evaluate
                (calculateMetricFirstKResults optimalTraversalMetric [1; 2; 4]%Z
                   trackedTopology contributingDocuments unweighted full None
                   (Some 5000%Q) (Some true) (Some 1000000%Q));
              mret ([metricAll] ++ metricsFirstK)
          end
        else mret [(-1)%Q; (-1)%Q; (-1)%Q; (-1)%Q]
    end
  else mret [(-1)%Q; (-1)%Q; (-1)%Q; (-1)%Q].

(** The body of the innermost loop of [executeQueries]. *)
Definition executeOne (data : gmap string IBenchmarkResult) (name id query : string)
  : Async (gmap string IBenchmarkResult) :=
  m ← tryCatch (output ← executeQuery query; mret (ofOutput output))
                (λ error, mret (ofError error));
  metricsCalculated ← calculateMetrics m;
  mret (store data name id m metricsCalculated).

(** [for (const id in test)] enumerates the indices of the array as
    decimal strings. *)
Definition executeSet (data : gmap string IBenchmarkResult)
    (set : string * list string) : Async (gmap string IBenchmarkResult) :=
  foldM (λ data '(i, query), executeOne data set.1 (pretty (i : nat)) query)
        data (imap pair set.2).

Definition executeQueries (data : gmap string IBenchmarkResult) (iterations : nat)
  : Async (gmap string IBenchmarkResult) :=
  foldM (λ data (iteration : nat), foldM executeSet data querySets)
        data (seq 0 iterations).

Definition run : Async (gmap string IBenchmarkResult) :=
  _ ← executeQueries ∅ warmup;
  results ← executeQueries ∅ replication;
  mret (average replication <$> results).
End Engine.

End Runner.

(** ** The sequence aggregator (class ResultAggregatorComunicaQuerySequence)

    Result records are JavaScript objects that the aggregator mutates in
    place and shares between its lists, so they live in a heap and the
    lists hold references. The groups are plain objects keyed by template
    or name. *)

Module Aggregator.

(** The values an [httpRequests] field is given here; a string or the
    number NaN itself are left out. *)
Inductive jsval : Type :=
  | JUndefined
  | JNull
  | JBool (b : bool)
  | JNumber (r : R).

(** A number computed by the aggregator. *)
Inductive jsnumber : Type :=
  | Finite (r : R)
  | NotANumber.

(** [typeof v === 'number'] *)
Definition typeofNumber (v : jsval) : bool :=
  match v with
  | JNumber _ => true
  | _ => false
  end.

(** The conversion the arithmetic operators apply to an operand. *)
Definition toNumber (v : jsval) : jsnumber :=
  match v with
  | JUndefined => NotANumber
  | JNull => Finite 0
  | JBool true => Finite 1
  | JBool false => Finite 0
  | JNumber r => Finite r
  end.

Definition lift2 (f : R → R → R) (a b : jsnumber) : jsnumber :=
  match a, b with
  | Finite x, Finite y => Finite (f x y)
  | _, _ => NotANumber
  end.

(** The arithmetic of the JavaScript engine on finite numbers. [+], [-]
    and [/] round the exact result to a double; [**] and [Math.sqrt] are
    implementation-approximated by the language standard. What the
    aggregator computes is therefore stated for whatever these operations
    are. [Math.max] and [Math.min] return one of their arguments and are
    not part of it. *)
Class Arithmetic : Type := {
  addition : R → R → R;
  subtraction : R → R → R;
  division : R → R → R;
  (* x ** 2 *)
  squaring : R → R;
  (* Math.sqrt(x) *)
  squareRoot : R → R
}.

(** The arithmetic of the real numbers, without rounding. *)
Definition exact : Arithmetic :=
  {| addition := Rplus; subtraction := Rminus; division := Rdiv;
     squaring := λ x, (x * x)%R; squareRoot := sqrt |}.



Definition Math_max : jsnumber → jsnumber → jsnumber := lift2 Rmax.
Definition Math_min : jsnumber → jsnumber → jsnumber := lift2 Rmin.

Record SequenceElement : Type := { elementTemplate : string }.

(** The fields of [IResult] that the aggregator reads or writes. *)
Record IResult : Type := {
  name : string;
  id : string;
  template : string;
  sequence : option string;
  sequenceElement : SequenceElement;
  error : bool;
  httpRequests : jsval
}.

Record IAggregateResult : Type := {
  aggregateName : string;
  aggregateHttpRequests : option jsnumber;
  httpRequestsMax : option jsnumber;
  httpRequestsMin : option jsnumber;
  httpRequestsStd : option jsnumber
}.

(** [result.sequence = result.name; result.name = template] *)
Definition relabel (r : IResult) : IResult :=
  {| name := template r; id := id r; template := template r;
     sequence := Some (name r); sequenceElement := sequenceElement r;
     error := error r; httpRequests := httpRequests r |}.

(** One turn of the loop of [groupResults]: [heap] holds the records,
    [templates] the groups built so far. For a template that is the name
    of an inherited property, [template in templates] holds although no
    group was created, and [templates[template].push] is not a function:
    the call throws after the record has been relabelled. *)
Definition groupStep (st : gmap nat IResult * Completion (gmap string (list nat)))
    (result : nat) : gmap nat IResult * Completion (gmap string (list nat)) :=
  match st.2, st.1 !! result with
  | Normal templates, Some r =>
      let template := template r in
      let templates :=
        if Prototype.has templates template then templates
        else <[template := []]> templates in
      (<[result := relabel r]> st.1,
       match templates !! template with
       | Some group => Normal (<[template := group ++ [result]]> templates)
       | None => Abrupt (Prototype.notAFunction "templates[template].push")
       end)
  | _, _ => st
  end.

Definition groupResults (heap : gmap nat IResult) (results : list nat)
  : gmap nat IResult * Completion (gmap string (list nat)) :=
  foldl groupStep (heap, Normal ∅) results.

(** Specification side: does the record at [l] carry the template [t]? *)
Definition hasTemplate (heap : gmap nat IResult) (t : string) (l : nat) : bool :=
  match heap !! l with
  | Some r => bool_decide (template r = t)
  | None => false
  end.

(** One turn of the loop of [groupAggregateResults]; [i] is the position
    of [result] in the array. *)
Definition groupAggregateStep (groups : Completion (gmap string (list nat)))
    (entry : nat * IAggregateResult) : Completion (gmap string (list nat)) :=
  match groups with
  | Normal groups =>
      let key := aggregateName entry.2 in
      if Prototype.has groups key then
        match groups !! key with
        | Some group => Normal (<[key := group ++ [entry.1]]> groups)
        | None => Abrupt (Prototype.notAFunction "groups[key].push")
        end
      else Normal (<[key := [entry.1]]> groups)
  | Abrupt message => Abrupt message
  end.

(** [groupAggregateResults] keys the aggregates (by their position in the
    array they come from) on their name. *)
Definition groupAggregateResults (results : list IAggregateResult)
  : Completion (gmap string (list nat)) :=
  foldl groupAggregateStep (Normal ∅) (imap pair results).

(** The running values of the first loop over a group. *)
Record Tally : Type := {
  requestsSum : jsnumber;
  requestsMax : jsnumber;
  requestsMin : jsnumber;
  successfulExecutions : nat
}.

(** The four statistics written to the aggregate of a group. *)
Record HttpRequestsStatistics : Type := {
  statMean : jsnumber;
  statMax : jsnumber;
  statMin : jsnumber;
  statStd : jsnumber
}.

Definition writeStatistics (s : HttpRequestsStatistics) (a : IAggregateResult)
  : IAggregateResult :=
  {| aggregateName := aggregateName a;
     aggregateHttpRequests := Some (statMean s);
     httpRequestsMax := Some (statMax s);
     httpRequestsMin := Some (statMin s);
     httpRequestsStd := Some (statStd s) |}.

(** The [TypeError]s of [groupedAggregates[key][0].httpRequests = ...] when
    [groupedAggregates[key]] is [undefined] and when its element 0 is. *)
Definition cannotReadFirst : string :=
  "TypeError: Cannot read properties of undefined (reading '0')".
Definition cannotSetHttpRequests : string :=
  "TypeError: Cannot set properties of undefined (setting 'httpRequests')".

(** Specification side: the sum of a list of reals. *)
Definition sumR (xs : list R) : R := foldr Rplus 0%R xs.

(** Specification side: the numbers of the members of a group that have
    no error flag and carry a number, in order. *)
Definition counted (resultGroup : list IResult) : list R :=
  omap (λ res, if error res then None
               else if httpRequests res is JNumber x then Some x else None)
       resultGroup.

(** Specification side: the [httpRequests] operands of the members of a
    group that have no error flag, in order. *)
Definition errorFree (resultGroup : list IResult) : list jsnumber :=
  (λ res, toNumber (httpRequests res)) <$> filter (λ res, negb (error res)) resultGroup.

Section Engine.
Context {arithmetic : Arithmetic}.

Definition add : jsnumber → jsnumber → jsnumber := lift2 addition.
Definition sub : jsnumber → jsnumber → jsnumber := lift2 subtraction.
(** Only used with a positive divisor. *)
Definition div : jsnumber → jsnumber → jsnumber := lift2 division.

(** [a ** 2] *)
Definition square (a : jsnumber) : jsnumber :=
  match a with
  | Finite x => Finite (squaring x)
  | NotANumber => NotANumber
  end.

(** Only used with a sum of squares divided by a positive count. *)
Definition Math_sqrt (a : jsnumber) : jsnumber :=
  match a with
  | Finite x => Finite (squareRoot x)
  | NotANumber => NotANumber
  end.

Definition tallyStep (t : Tally) (result : IResult) : Tally :=
  let resultHttpRequests := toNumber (httpRequests result) in
  let later := bool_decide (0 < successfulExecutions t)%nat in
  {| requestsSum :=
       if later then add (requestsSum t) resultHttpRequests else resultHttpRequests;
     requestsMax :=
       if later then Math_max (requestsMax t) resultHttpRequests else resultHttpRequests;
     requestsMin :=
       if later then Math_min (requestsMin t) resultHttpRequests else resultHttpRequests;
     successfulExecutions := S (successfulExecutions t) |}.

Definition tally (resultGroup : list IResult) : Tally :=
  foldl tallyStep
    {| requestsSum := Finite 0; requestsMax := Finite 0; requestsMin := Finite 0;
       successfulExecutions := 0 |}
    (filter (λ res, negb (error res) && typeofNumber (httpRequests res))
            resultGroup).

(** The second loop: the sum of squared deviations from [mean]. *)
Definition squaredDeviations (mean : jsnumber) (resultGroup : list IResult) : jsnumber :=
  foldl (λ (std : jsnumber) (result : IResult),
           if error result then std
           else add std (square (sub (toNumber (httpRequests result)) mean)))
        (Finite 0) resultGroup.

(** Lines 50-74 for one group; [None] when nothing is written. *)
Definition httpRequestsStatistics (resultGroup : list IResult)
  : option HttpRequestsStatistics :=
  let t := tally resultGroup in
  if bool_decide (0 < successfulExecutions t)%nat then
    let n := Finite (INR (successfulExecutions t)) in
    let mean := div (requestsSum t) n in
    Some {| statMean := mean;
            statMax := requestsMax t;
            statMin := requestsMin t;
            statStd := Math_sqrt (div (squaredDeviations mean resultGroup) n) |}
  else None.

(** [groupedAggregates[key][0]] for one group. A key without a group of
    aggregates reads as [undefined]; a key that is only inherited reads as
    a value without element 0, and the assignment fails on that. *)
Definition aggregateGroup (heap : gmap nat IResult)
    (groupedAggregates : gmap string (list nat))
    (aggregateResults : Completion (list IAggregateResult))
    (entry : string * list nat) : Completion (list IAggregateResult) :=
  match aggregateResults with
  | Abrupt message => Abrupt message
  | Normal aggregates =>
      match httpRequestsStatistics (omap (λ l, heap !! l) entry.2) with
      | None => Normal aggregates
      | Some s =>
          match groupedAggregates !! entry.1 with
          | Some group =>
              match head group with
              | Some i => Normal (alter (writeStatistics s) i aggregates)
              | None => Abrupt cannotSetHttpRequests
              end
          | None =>
              if Prototype.isInherited entry.1 then Abrupt cannotSetHttpRequests
              else Abrupt cannotReadFirst
          end
      end
  end.

(** The first loop of [aggregateResults]:
    [result.template = result.sequenceElement.template]. *)
Definition assignTemplates (heap : gmap nat IResult) (results : list nat)
  : gmap nat IResult :=
  foldl (λ (h : gmap nat IResult) (result : nat),
           alter (λ r, {| name := name r; id := id r;
                          template := elementTemplate (sequenceElement r);
                          sequence := sequence r;
                          sequenceElement := sequenceElement r;
                          error := error r;
                          httpRequests := httpRequests r |}) result h)
        heap results.

(** The records of the groups, as handed to the base class. *)
Definition members (heap : gmap nat IResult) (groupedResults : gmap string (list nat))
  : gmap string (list IResult) :=
  (λ group : list nat, omap (λ l, heap !! l) group) <$> groupedResults.

Section Aggregate.
(** Inherited from the base class, which is not part of these sources. *)
Variable aggregateGroupedResults : gmap string (list IResult) → list IAggregateResult.

Definition aggregateResults (heap : gmap nat IResult) (results : list nat)
  : gmap nat IResult * Completion (list IAggregateResult) :=
  let heap := assignTemplates heap results in
  match groupResults heap results with
  | (heap, Normal groupedResults) =>
      let aggregateResults := aggregateGroupedResults (members heap groupedResults) in
      match groupAggregateResults aggregateResults with
      | Normal groupedAggregates =>
          (heap,
           foldl (aggregateGroup heap groupedAggregates) (Normal aggregateResults)
                 (map_to_list groupedResults))
      | Abrupt message => (heap, Abrupt message)
      end
  | (heap, Abrupt message) => (heap, Abrupt message)
  end.
End Aggregate.
End Engine.

End Aggregator.

(** ** The metadata loader (lib/QueryLoaderFile.ts)

    What [loadQueriesMetadataStatic] does with one metadata file once
    [JSON.parse] has returned; walking the directory and cleaning the file
    name are not modelled. *)

Module Loader.

#[local] Set Warnings "-register-all".

Inductive json : Type :=
  | JsonNull
  | JsonBool (b : bool)
  | JsonNumber (q : Q)
  | JsonString (s : string)
  | JsonArray (elements : list json)
  | JsonObject (fields : list (string * json)).

(** An object as the list of its own properties in enumeration order;
    the keys are distinct. *)
Definition object : Type := list (string * json).

(** [Array.isArray(v)] *)
Definition isArray (v : json) : bool :=
  match v with
  | JsonArray _ => true
  | _ => false
  end.

(** The variables [arrayKey] and [arrayValue]. *)
Record ArrayField : Type := {
  arrayKey : option string;
  arrayValue : option (list json)
}.

(** The loop [for (const key in parsed)]. *)
Definition findArrayField (parsed : object) : ArrayField :=
  foldl (λ (found : ArrayField) '(key, value),
           match value with
           | JsonArray elements =>
               {| arrayKey := Some key; arrayValue := Some elements |}
           | _ => found
           end)
        {| arrayKey := None; arrayValue := None |} parsed.

(** [arrayKey.slice(0, -1)] *)
Definition dropLast (s : string) : string :=
  String.substring 0 (String.length s - 1) s.

(** [{ ...base, [key]: value }]: a key of [base] keeps its place. *)
Fixpoint setField (key : string) (value : json) (base : object) : object :=
  match base with
  | [] => [(key, value)]
  | (k, v) :: rest =>
      if String.eqb k key then (k, value) :: rest
      else (k, v) :: setField key value rest
  end.

Definition baseFields (parsed : object) : object :=
  filter (λ entry : string * json, negb (isArray entry.2)) parsed.

(** Specification side: the array-valued fields of an object, in order. *)
Definition arrayFields (parsed : object) : list (string * list json) :=
  omap (λ entry : string * json,
          match entry.2 with
          | JsonArray elements => Some (entry.1, elements)
          | _ => None
          end) parsed.

(** The metadata objects one file contributes, in the order pushed. *)
Definition loadMetadataFile (parsed : object) : Completion (list object) :=
  let found := findArrayField parsed in
  match arrayValue found, arrayKey found with
  | Some arrayValue, Some arrayKey =>
      (* [!arrayKey] also holds for the empty string *)
      if String.eqb arrayKey "" then Abrupt "queries metadata has no array entry"
      else
        Normal (map (λ element, setField (dropLast arrayKey) element (baseFields parsed))
                    arrayValue)
  | _, _ => Abrupt "queries metadata has no array entry"
  end.

End Loader.

(** ** Concrete inputs used to exercise the statements below *)

Module Sample.
Import Metric.

(** An evaluator that scores every graph 0 and answers k for the first k. *)
Definition metric : RunLinkTraversalPerformanceMetrics :=
  {| runMetricAll := λ _ _ _ _ _, 0%Q;
     runMetricFirstK := λ k _ _ _ _ _ _ _ _ _ _, inject_Z k |}.

Definition threeGroups : list (list string) := [["a"]; ["b"]; ["a"; "b"]].

Definition world : Runner.World := {| Runner.requests := 0; Runner.evaluatorLog := [] |}.

Definition sent (n : nat) : Runner.World :=
  {| Runner.requests := n; Runner.evaluatorLog := [] |}.

Definition boom : Runner.JsError :=
  {| Runner.message := "socket hang up"; Runner.partialOutput := None |}.

(** Five rows, then the stream fails. *)
Definition fiveRowsThenError : list Runner.StreamEvent :=
  [Runner.OnData Runner.PlainRow 1; Runner.OnData Runner.PlainRow 2;
   Runner.OnData Runner.PlainRow 3; Runner.OnData Runner.PlainRow 4;
   Runner.OnData Runner.PlainRow 5; Runner.OnError boom 6].

(** The first request fails after five rows, the later ones end at once. *)
Definition respondFailing (n : nat) (query : string) : list Runner.StreamEvent :=
  match n with
  | O => fiveRowsThenError
  | S _ => [Runner.OnEnd 1]
  end.

(** The first request takes 100 ms, the later ones 200 ms. *)
Definition respondTimes (n : nat) (query : string) : list Runner.StreamEvent :=
  match n with
  | O => [Runner.OnEnd 100]
  | S _ => [Runner.OnEnd 200]
  end.


(** One row after 5 ms, the end after 30 ms. *)
Definition respondOneRow (n : nat) (query : string) : list Runner.StreamEvent :=
  [Runner.OnData Runner.PlainRow 5; Runner.OnEnd 30].

Definition twoQueries : list (string * list string) :=
  [("q", ["SELECT * WHERE { ?s ?p ?o }"; "ASK { ?s ?p ?o }"])].

Definition firstRecord : Runner.IBenchmarkResult :=
  {| Runner.name := "q"; Runner.id := "0"; Runner.count := 2; Runner.time := 100;
     Runner.timestamps := [10; 20]%Q; Runner.error := false;
     Runner.metricsCalculated := [-1; -1; -1; -1]%Q; Runner.metadata := [] |}.

Definition recorded : gmap string Runner.IBenchmarkResult := {[ "q0" := firstRecord ]}.

Definition step (stepName templateName : string) : Aggregator.IResult :=
  {| Aggregator.name := stepName; Aggregator.id := "0";
     Aggregator.template := templateName; Aggregator.sequence := None;
     Aggregator.sequenceElement := {| Aggregator.elementTemplate := templateName |};
     Aggregator.error := false; Aggregator.httpRequests := Aggregator.JUndefined |}.

Definition steps : gmap nat Aggregator.IResult :=
  {[ 1%nat := step "q0" "T1"; 2%nat := step "q1" "T1" ]}.

Definition execution (failed : bool) (requests : Aggregator.jsval) : Aggregator.IResult :=
  {| Aggregator.name := "q"; Aggregator.id := "0";
     Aggregator.template := "T"; Aggregator.sequence := None;
     Aggregator.sequenceElement := {| Aggregator.elementTemplate := "T" |};
     Aggregator.error := failed; Aggregator.httpRequests := requests |}.

(** Executions with 10 and 20 requests, and one that failed. *)
Definition tenTwentyFailed : list Aggregator.IResult :=
  [execution false (Aggregator.JNumber 10); execution false (Aggregator.JNumber 20);
   execution true Aggregator.JUndefined].

(** Executions with 10 and 20 requests, and one without a request count
    that did not fail. *)
Definition tenTwentyUncounted : list Aggregator.IResult :=
  [execution false (Aggregator.JNumber 10); execution false (Aggregator.JNumber 20);
   execution false Aggregator.JUndefined].

(** A metadata file with two array-valued fields. *)
Definition twoArrays : Loader.object :=
  [("template", Loader.JsonString "t");
   ("xs", Loader.JsonArray [Loader.JsonNumber 1]);
   ("ys", Loader.JsonArray [Loader.JsonNumber 2; Loader.JsonNumber 3])].

(** A metadata file without an array-valued field. *)
Definition noArray : Loader.object :=
  [("template", Loader.JsonString "t"); ("provenance", Loader.JsonString "b")].

Definition mergedRecord : Runner.IBenchmarkResult :=
  {| Runner.name := "q"; Runner.id := "0"; Runner.count := 2;
     Runner.time := Double.add 100 30;
     Runner.timestamps := [Double.add 10 5; 20%Q]; Runner.error := false;
     Runner.metricsCalculated := [-1; -1; -1; -1]%Q; Runner.metadata := [] |}.

End Sample.

(** ** Readings of a callback sequence

    What the callbacks that ran before the promise settled have delivered;
    [executeQuery] is specified against these. *)

Module Trace.
Import Runner.

(** The clock readings of the rows, in arrival order. *)
Definition rowClocks (events : list StreamEvent) : list Q :=
  omap (λ event, if event is OnData _ clock then Some clock else None) events.

(** The parsed [_sourceAttribution] of the rows that carry a topology. *)
Definition attributions (events : list StreamEvent) : list (list string) :=
  omap (λ event,
          if event is OnData (TopologyRow _ attribution) _ then Some attribution
          else None) events.

(** The parsed [_trackedTopology] of the rows that carry one. *)
Definition topologies (events : list StreamEvent) : list Metric.ITraversalTopology :=
  omap (λ event,
          if event is OnData (TopologyRow topology _) _ then Some topology else None)
       events.

(** The objects of the [metadata] events. *)
Definition metadataObjects (events : list StreamEvent) : list Metadata :=
  omap (λ event, if event is OnMetadata m then Some m else None) events.

(** The topology of the last row that carries one. *)
Definition lastTopology (events : list StreamEvent) : Metric.ITraversalTopology :=
  default emptyTopology (last (topologies events)).

(** The object of the last [metadata] event. *)
Definition lastMetadata (events : list StreamEvent) : Metadata :=
  default [] (last (metadataObjects events)).

(** A callback that cannot settle the promise when no timeout is set. *)
Definition isIdle (event : StreamEvent) : bool :=
  match event with
  | OnMetadata _ | OnData _ _ | OnTimeout => true
  | _ => false
  end.

(** What a later iteration may change in an existing record. *)
Definition persists (before after : IBenchmarkResult) : Prop :=
  name after = name before
  ∧ id after = id before
  ∧ count after = count before
  ∧ metricsCalculated after = metricsCalculated before
  ∧ metadata after = metadata before
  ∧ length (timestamps after) = length (timestamps before)
  ∧ (error before = true → error after = true).

(** The keys [name + id] of the queries of the query sets. *)
Definition keysOf (querySets : list (string * list string)) : list string :=
  set ← querySets; (λ i : nat, set.1 +:+ pretty i) <$> seq 0 (length set.2).

(** How the result map may evolve while the query sets are executed: other
    keys are left alone and existing records persist. *)
Definition extends (querySets : list (string * list string))
    (before after : gmap string IBenchmarkResult) : Prop :=
  (∀ key, key ∉ keysOf querySets → after !! key = before !! key)
  ∧ (∀ key e, before !! key = Some e →
       ∃ e', after !! key = Some e' ∧ persists e e').

End Trace.

(** ** Liveness of the endpoint ([isUp] and [waitUntilUp])

    A probe is the callback sequence of one request with [upQuery]; its
    timer is always armed (10 s). *)

Module Liveness.
Import Runner.

(** The promise of [isUp]: [None] while no decisive callback has run. It
    has no [reject] path: the stream's error and the timer resolve it to
    [false], and [.catch] turns a rejected fetch into [false]. *)
Fixpoint isUp (events : list StreamEvent) : option bool :=
  match events with
  | [] => None
  | OnError _ _ :: _ => Some false
  | OnEnd _ :: _ => Some true
  | OnTimeout :: _ => Some false
  | OnFetchRejected _ :: _ => Some false
  | OnMetadata _ :: rest | OnData _ _ :: rest => isUp rest
  end.

(** [waitUntilUp]: [counter] counts the failed probes, each followed by
    one second of sleep; the result is the counter that is logged. [fuel]
    bounds the number of probes, and [None] stands for a loop that has not
    returned. *)
Fixpoint waitUntilUp (probes : nat → list StreamEvent) (fuel counter : nat)
  : option nat :=
  match fuel with
  | O => None
  | S fuel =>
      match isUp (probes counter) with
      | Some true => Some counter
      | Some false => waitUntilUp probes fuel (S counter)
      | None => None
      end
  end.

End Liveness.

(** ** File names of the metadata loader

    [removeMatches] and the string methods it calls. A string is the
    sequence of its code units; [includes] and [replace] compare code units
    only. *)

Module FileNames.

(** [s.slice(n)] for [n] within the string. *)
Fixpoint skip (n : nat) (s : string) : string :=
  match n, s with
  | S n, String _ rest => skip n rest
  | _, _ => s
  end.

(** [s.includes(pattern)] *)
Fixpoint includes (pattern s : string) : bool :=
  String.prefix pattern s
  || match s with
     | EmptyString => false
     | String _ rest => includes pattern rest
     end.

(** [s.replace(pattern, '')] with a string pattern: the first occurrence is
    removed. *)
Fixpoint replaceFirst (pattern s : string) : string :=
  if String.prefix pattern s then skip (String.length pattern) s
  else match s with
       | EmptyString => EmptyString
       | String c rest => String c (replaceFirst pattern rest)
       end.

(** [removeMatches]: the indicators are tried in the insertion order of the
    set. *)
Definition removeMatches (filename : string) (metadataIndicators : list string)
  : string :=
  foldl (λ (stripped indicator : string),
           if includes indicator stripped then replaceFirst indicator stripped
           else stripped)
        filename metadataIndicators.

(** [o[key]] for an object held as its list of properties. *)
Fixpoint getField (key : string) (o : Loader.object) : option Loader.json :=
  match o with
  | [] => None
  | (k, v) :: rest => if String.eqb k key then Some v else getField key rest
  end.

(** [(queryMetadata[key] ??= []).push(obj)]. For a key that is only
    inherited, [queryMetadata[key]] is a function or an object: it is not
    nullish, so nothing is assigned, and it has no [push]. *)
Definition pushOne (key : string)
    (queryMetadata : Completion (gmap string (list Loader.object)))
    (obj : Loader.object) : Completion (gmap string (list Loader.object)) :=
  match queryMetadata with
  | Normal qm =>
      match qm !! key with
      | Some objects => Normal (<[key := objects ++ [obj]]> qm)
      | None =>
          if Prototype.isInherited key then
            Abrupt (Prototype.notAFunction "(intermediate value).push")
          else Normal (<[key := [obj]]> qm)
      end
  | Abrupt message => Abrupt message
  end.

(** The loop [for (const element of arrayValue)] over the objects of a
    file. *)
Definition pushAll (queryMetadata : gmap string (list Loader.object)) (key : string)
    (objects : list Loader.object) : Completion (gmap string (list Loader.object)) :=
  foldl (pushOne key) (Normal queryMetadata) objects.

(** Lines 112-141 for one file whose extension is accepted: [extension] is
    what [extname] returned for [name]. *)
Definition loadMetadataEntry (queryMetadata : gmap string (list Loader.object))
    (prefix name extension : string) (indicators : list string)
    (parsed : Loader.object) : Completion (gmap string (list Loader.object)) :=
  match Loader.loadMetadataFile parsed with
  | Normal objects =>
      let cleanedDirent := removeMatches (replaceFirst extension name) indicators in
      pushAll queryMetadata (prefix +:+ cleanedDirent) objects
  | Abrupt message => Abrupt message
  end.

End FileNames.

(** ** Query files ([loadQueriesStatic])

    What is done with the contents of one query file. The contents are
    taken to be ASCII text, so that the white space [trim] removes is the
    ASCII white space (tab, line feed, vertical tab, form feed, carriage
    return, space). *)

Module QueryFiles.

Definition isNewline (c : Ascii.ascii) : bool := (Ascii.nat_of_ascii c =? 10)%nat.

(** The blank line that separates two queries. *)
Definition querySeparator : string :=
  String (Ascii.ascii_of_nat 10) (String (Ascii.ascii_of_nat 10) EmptyString).

Definition isWhiteSpace (c : Ascii.ascii) : bool :=
  let n := Ascii.nat_of_ascii c in
  (9 <=? n)%nat && (n <=? 13)%nat || (n =? 32)%nat.

(** Put [c] in front of the first piece. *)
Definition extend (c : Ascii.ascii) (pieces : list string) : list string :=
  match pieces with
  | [] => [String c EmptyString]
  | piece :: pieces => String c piece :: pieces
  end.

(** [s.split('\n\n')]: the separator is found from left to right. *)
Fixpoint splitSeparator (s : string) : list string :=
  match s with
  | EmptyString => [EmptyString]
  | String c rest =>
      match rest with
      | String c' rest' =>
          if isNewline c && isNewline c' then EmptyString :: splitSeparator rest'
          else extend c (splitSeparator rest)
      | EmptyString => extend c (splitSeparator rest)
      end
  end.

Fixpoint trimStart (s : string) : string :=
  match s with
  | EmptyString => EmptyString
  | String c rest => if isWhiteSpace c then trimStart rest else s
  end.

Fixpoint trimEnd (s : string) : string :=
  match s with
  | EmptyString => EmptyString
  | String c rest =>
      match trimEnd rest with
      | EmptyString => if isWhiteSpace c then EmptyString else String c EmptyString
      | kept => String c kept
      end
  end.

(** [s.trim()] *)
Definition trim (s : string) : string := trimEnd (trimStart s).

(** Lines 51-53: the queries of a file. *)
Definition parseQueries (fileContents : string) : list string :=
  filter (λ query, (0 < String.length query)%nat)
         (map trim (splitSeparator fileContents)).

(** The object [querySets]: its own properties and, once it has been
    replaced, its prototype ([None] stands for [Object.prototype]). *)
Record QuerySets : Type := {
  own : gmap string (list string);
  prototype : option (list string)
}.

(** [querySets[key] = queries]. The name [__proto__] is an accessor of
    [Object.prototype]: assigning an array to it replaces the prototype of
    the object and creates no property. Every other name becomes, or
    stays, an own property. *)
Definition assign (querySets : QuerySets) (key : string) (queries : list string)
  : QuerySets :=
  if String.eqb key "__proto__" then
    {| own := own querySets; prototype := Some queries |}
  else {| own := <[key := queries]> (own querySets); prototype := prototype querySets |}.

(** Line 54 for one file whose extension is accepted: [extension] is what
    [extname] returned for [name]. *)
Definition loadQueryEntry (querySets : QuerySets)
    (prefix name extension fileContents : string) : QuerySets :=
  assign querySets (prefix +:+ FileNames.replaceFirst extension name)
    (parseQueries fileContents).

(** The first and the last code unit of a string are white space. *)
Definition startsWithSpace (s : string) : bool :=
  match s with
  | EmptyString => false
  | String c _ => isWhiteSpace c
  end.

Fixpoint endsWithSpace (s : string) : bool :=
  match s with
  | EmptyString => false
  | String c EmptyString => isWhiteSpace c
  | String _ rest => endsWithSpace rest
  end.

(** Every code unit is white space. *)
Fixpoint isBlank (s : string) : bool :=
  match s with
  | EmptyString => true
  | String c rest => isWhiteSpace c && isBlank rest
  end.

End QueryFiles.

(** ** Further concrete inputs *)

Module Cases.
Import Runner.

(** Two nodes, the first without parent. *)
Definition topology : Metric.ITraversalTopology :=
  {| Metric.nodeToIndex := {[ "a" := 0%Q; "b" := 1%Q ]};
     Metric.edgeListUnWeighted := [[0; 1; 1]%Q];
     Metric.edgeListRequestTime := [[0; 1; 250]%Q];
     Metric.edgeListDocumentSize := [[0; 1; 0]%Q];
     Metric.edgesInGraph := ∅;
     Metric.metadataNode :=
       [{| Metric.hasParent := false |}; {| Metric.hasParent := true |}];
     Metric.traversalOrder := ["a"; "b"];
     Metric.traversalOrderEdges := [[0; 1; 1]%Q] |}.

(** A metadata event, a row with topology after 3 ms, a plain row after 7. *)
Definition rows : list StreamEvent :=
  [OnMetadata [("httpRequests", "2")]; OnData (TopologyRow topology ["a"]) 3;
   OnData PlainRow 7].

(** A stream that delivers one row and then stays silent. *)
Definition respondSilent (n : nat) (query : string) : list StreamEvent :=
  [OnMetadata []; OnData PlainRow 1].

Definition oneQuery : list (string * list string) :=
  [("q", ["SELECT * WHERE { ?s ?p ?o }"])].

(** An execution with three rows and no contributing documents. *)
Definition noDocuments : Measurement :=
  {| mCount := 3; mTime := 12; mTimestamps := [];
     mTrackedTopology := Some emptyTopology;
     mContributingDocuments := Some [];
     mMetadata := []; errorObject := None |}.

(** The first two probes fail (timer, stream error), the third succeeds. *)
Definition probes (n : nat) : list StreamEvent :=
  match n with
  | 0 => [OnTimeout]
  | 1 => [OnData PlainRow 1; OnError Sample.boom 2]
  | _ => [OnData PlainRow 1; OnEnd 2]
  end.

(** A base class that returns one empty aggregate named T. *)
Definition oneAggregate (grouped : gmap string (list Aggregator.IResult))
  : list Aggregator.IAggregateResult :=
  [{| Aggregator.aggregateName := "T"; Aggregator.aggregateHttpRequests := None;
      Aggregator.httpRequestsMax := None; Aggregator.httpRequestsMin := None;
      Aggregator.httpRequestsStd := None |}].

(** Two executions of template T with 10 and 20 requests, one failed. *)
Definition executions : gmap nat Aggregator.IResult :=
  {[ 1%nat := Sample.execution false (Aggregator.JNumber 10);
     2%nat := Sample.execution false (Aggregator.JNumber 20);
     3%nat := Sample.execution true Aggregator.JUndefined ]}.

(** A single failed execution. *)
Definition failures : gmap nat Aggregator.IResult :=
  {[ 1%nat := Sample.execution true Aggregator.JUndefined ]}.


(** A query file with two queries and a trailing line feed. *)
Definition queryFile : string :=
  "SELECT 1" +:+ QueryFiles.querySeparator +:+ " ASK {} "
  +:+ String (Ascii.ascii_of_nat 10) EmptyString.

(** A file of a space, a blank line and a tab. *)
Definition blankFile : string :=
  " " +:+ QueryFiles.querySeparator +:+ String (Ascii.ascii_of_nat 9) EmptyString.

End Cases.

(** * Properties *)

(** Expose the binds and returns of the asynchronous methods. *)
Ltac async_unfold :=
  unfold mbind, Runner.async_bind, mret, Runner.async_ret, Runner.throw.

(** Expose the loop body of [executeQueries]. *)
Ltac executeOne_unfold :=
  unfold Runner.executeOne, Runner.tryCatch, Runner.executeQuery; async_unfold.

(** ** Metric input preparation and the evaluator adapter *)

Section MetricFacts.
Import Metric.

Lemma convertZeroIndexedToOneIndexed_lookup (edgeList : list (list Q)) (i : nat)
    (x : list Q) :
  edgeList !! i = Some x →
  convertZeroIndexedToOneIndexed edgeList !! i
  = Some [plusOne (x !! 0%nat); plusOne (x !! 1%nat); orOne (x !! 2%nat)].
Proof.
  revert i. induction edgeList as [|y edgeList IH]; intros [|i] Hx;
    simplify_eq/=; auto.
Qed.

Lemma convertZeroIndexedToOneIndexed_length (edgeList : list (list Q)) :
  length (convertZeroIndexedToOneIndexed edgeList) = length edgeList.
Proof. apply length_map. Qed.

(** C2, as stated, fails on a zero weight: the triple (0, 1, 0) is sent to
    (1, 2, 1), so the weight 0 is replaced by 1 although it is present. *)
Lemma convertZeroIndexedToOneIndexed_zero_weight :
  convertZeroIndexedToOneIndexed [[0; 1; 0]%Q] = [[Num (0 + 1); Num (1 + 1); Num 1]]
  ∧ Num 1 ≠ Num 0.
Proof. split; [reflexivity | discriminate]. Qed.

(** C2, amended: the i-th edge (s, t, w) is sent to (s+1, t+1, w') where w'
    is w when w is present and not zero, and 1 when w is zero or omitted. *)
Theorem convertZeroIndexedToOneIndexed_triple (edgeList : list (list Q)) (i : nat)
    (s t : Q) (w : option Q) :
  edgeList !! i = Some (s :: t :: option_list w) →
  convertZeroIndexedToOneIndexed edgeList !! i
  = Some [Num (s + 1); Num (t + 1);
          Num match w with
              | Some w => if Qeq_bool w 0 then 1 else w
              | None => 1
              end].
Proof.
  intros Hx. rewrite (convertZeroIndexedToOneIndexed_lookup _ _ _ Hx).
  destruct w as [w|]; simpl; [destruct (Qeq_bool w 0)|]; reflexivity.
Qed.

Lemma convertZeroIndexedToOneIndexed_triple_witness :
  [[3; 4; 7]%Q; [0; 1]%Q] !! 1%nat = Some (0%Q :: 1%Q :: option_list None)
  ∧ convertZeroIndexedToOneIndexed [[3; 4; 7]%Q; [0; 1]%Q] !! 1%nat
    = Some [Num (0 + 1); Num (1 + 1); Num 1].
Proof.
  split; [reflexivity|].
  apply (convertZeroIndexedToOneIndexed_triple [[3; 4; 7]%Q; [0; 1]%Q] 1 0 1 None).
  reflexivity.
Defined.

Lemma prepareMetricInput_groups (topology : ITraversalTopology)
    (contributingDocuments : list (list string)) (metricType : topologyType) :
  length (contributingNodes (prepareMetricInput topology contributingDocuments metricType))
  = length contributingDocuments.
Proof. simpl. apply length_map. Qed.

Section FirstK.
Variable metric : RunLinkTraversalPerformanceMetrics.
Variables (search : searchType) (location : option string) (batchSize : option Q)
  (sampling : option bool) (samples : option Q).

Lemma firstKLoop_spec (input : IMetricInput) (kToCheck : list Z) (acc : list Q)
    (log : list EvaluatorCall) :
  firstKLoop metric input search location batchSize sampling samples kToCheck acc log
  = (acc ++ map (firstKSlot metric input search location batchSize sampling samples)
              kToCheck,
     log ++ map CallMetricFirstK
              (filter (λ k, (k < Z.of_nat (length (contributingNodes input)))%Z)
                      kToCheck)).
Proof.
  revert acc log. induction kToCheck as [|k ks IH]; intros acc log; simpl.
  - by rewrite !app_nil_r.
  - unfold firstKSlot at 1. rewrite filter_cons.
    destruct (Z.ltb_spec k (Z.of_nat (length (contributingNodes input)))) as [Hk|Hk].
    + rewrite decide_True by done.
      unfold mbind, eval_bind, calculateMetricFirstK, invoke.
      rewrite IH. simpl. by rewrite <- !app_assoc.
    + rewrite decide_False by lia.
      rewrite IH. by rewrite <- !app_assoc.
Qed.
End FirstK.
End MetricFacts.

Section FirstKGuard.
Import Metric Runner.
Variable metric : RunLinkTraversalPerformanceMetrics.

(** C3: [calculateMetricFirstKResults] calls the first-k evaluator exactly
    for those k of [kToCheck] that the number of contributing groups strictly
    exceeds (the call log grows by these k, in order), and every other slot
    is -1; with [kToCheck = [1; 2; 4]] and three groups the slots are the
    evaluator's scores for 1 and 2 followed by -1, and so are the last three
    of the four slots [executeQueries] records for such a measurement. *)
Theorem calculateMetricFirstKResults_guard (kToCheck : list Z)
    (topology : ITraversalTopology) (docs : list (list string))
    (metricType : topologyType) (search : searchType) (location : option string)
    (batchSize : option Q) (sampling : option bool) (samples : option Q)
    (log : list EvaluatorCall) :
  let input := prepareMetricInput topology docs metricType in
  let score (s : searchType) (l : option string) (b : option Q) (r : option bool)
        (n : option Q) (k : Z) :=
    runMetricFirstK metric k (edgeList input) (contributingNodes input)
      (traversedPath input) (roots input) (numNodes input) s l b r n in
  calculateMetricFirstKResults metric kToCheck topology docs metricType search
    location batchSize sampling samples log
  = (map (λ k, if (Z.of_nat (length docs) >? k)%Z
               then score search location batchSize sampling samples k
               else (-1)%Q) kToCheck,
     log ++ map CallMetricFirstK
              (filter (λ k, (k < Z.of_nat (length docs))%Z) kToCheck))
  ∧ (length docs = 3%nat →
     calculateMetricFirstKResults metric [1; 2; 4]%Z topology docs metricType search
       location batchSize sampling samples log
     = ([score search location batchSize sampling samples 1%Z;
         score search location batchSize sampling samples 2%Z; (-1)%Q],
        log ++ [CallMetricFirstK 1; CallMetricFirstK 2]))
  ∧ (length docs = 3%nat → metricType = unweighted →
     ∀ (m : Measurement) (w : World),
       (0 < mCount m)%nat →
       mContributingDocuments m = Some docs →
       mTrackedTopology m = Some topology →
       calculateMetrics metric m w
       = Returned
           [runMetricAll metric (edgeList input) (contributingNodes input)
              (traversedPath input) (roots input) (numNodes input);
            score full None (Some 5000%Q) (Some true) (Some 1000000%Q) 1%Z;
            score full None (Some 5000%Q) (Some true) (Some 1000000%Q) 2%Z;
            (-1)%Q]
           {| requests := requests w;
              evaluatorLog :=
                evaluatorLog w ++ [CallMetricAll; CallMetricFirstK 1; CallMetricFirstK 2] |}).
Proof.
  intros input score.
  assert (Hgen : ∀ ks s l b r n lg,
    calculateMetricFirstKResults metric ks topology docs metricType s l b r n lg
    = (map (λ k, if (Z.of_nat (length docs) >? k)%Z then score s l b r n k
                 else (-1)%Q) ks,
       lg ++ map CallMetricFirstK
               (filter (λ k, (k < Z.of_nat (length docs))%Z) ks))).
  { intros ks s l b r n lg. unfold calculateMetricFirstKResults.
    rewrite firstKLoop_spec. fold input.
    assert (Hlen : length (contributingNodes input) = length docs)
      by apply prepareMetricInput_groups.
    rewrite Hlen. simpl. f_equal.
    apply map_ext. intros k. unfold firstKSlot. fold input. rewrite Hlen.
    by rewrite Z.gtb_ltb. }
  split; [apply Hgen|]. split.
  - intros H3. rewrite Hgen, H3. reflexivity.
  - intros H3 -> m w Hcount Hdocs Htopo. unfold calculateMetrics.
    rewrite bool_decide_eq_true_2 by done.
    rewrite Hdocs, Htopo, bool_decide_eq_true_2 by lia.
    unfold mbind, async_bind, evaluate at 1.
    unfold calculateMetricAllResults, calculateMetricAll, invoke. fold input.
    unfold evaluate. simpl evaluatorLog. rewrite Hgen, H3.
    simpl. by rewrite <- app_assoc.
Qed.

End FirstKGuard.

Lemma calculateMetricFirstKResults_guard_witness :
  let m := {| Runner.mCount := 3; Runner.mTime := 12; Runner.mTimestamps := [];
              Runner.mTrackedTopology := Some Runner.emptyTopology;
              Runner.mContributingDocuments := Some Sample.threeGroups;
              Runner.mMetadata := []; Runner.errorObject := None |} in
  let w := {| Runner.requests := 1; Runner.evaluatorLog := [] |} in
  Runner.calculateMetrics Sample.metric m w
  = Runner.Returned [0; 1; 2; -1]%Q
      {| Runner.requests := 1;
         Runner.evaluatorLog := [CallMetricAll; CallMetricFirstK 1; CallMetricFirstK 2] |}.
Proof.
  intros m w.
  apply (proj2 (proj2 (calculateMetricFirstKResults_guard Sample.metric [1; 2; 4]%Z
                         Runner.emptyTopology Sample.threeGroups Metric.unweighted
                         Metric.full None None None None []))
           eq_refl eq_refl m w); [simpl; lia | reflexivity | reflexivity].
Defined.

(** ** The execution engine *)

Section RunnerFacts.
Import Metric Runner.

Lemma combineTimestamps_prefix (entry timestamps : list Q) (n : nat) :
  (n ≤ length entry `min` length timestamps)%nat →
  let acc :=
    foldl (λ (acc : list Q) (i : nat),
             match acc !! i, timestamps !! i with
             | Some a, Some b => <[i := Double.add a b]> acc
             | _, _ => acc
             end) entry (seq 0 n) in
  length acc = length entry
  ∧ ∀ i, acc !! i
         = if decide (i < n)%nat
           then a ← entry !! i; b ← timestamps !! i; Some (Double.add a b)
           else entry !! i.
Proof.
  induction n as [|n IH]; intros Hn acc.
  - split; [done|]. intros i. by rewrite decide_False by lia.
  - subst acc. rewrite seq_S, foldl_app. simpl.
    destruct IH as [Hlen Hget]; [lia|].
    set (prev := foldl _ entry (seq 0 n)) in *.
    destruct (lookup_lt_is_Some_2 entry n) as [a Ha]; [lia|].
    destruct (lookup_lt_is_Some_2 timestamps n) as [b Hb]; [lia|].
    rewrite (Hget n), decide_False, Ha, Hb by lia.
    split; [by rewrite length_insert|].
    intros i. destruct (decide (i = n)) as [->|Hne].
    + rewrite list_lookup_insert_eq by lia.
      rewrite decide_True by lia. by rewrite Ha, Hb.
    + rewrite list_lookup_insert_ne by done. rewrite Hget.
      repeat case_decide; try lia; done.
Qed.

Lemma combineTimestamps_length (entry timestamps : list Q) :
  length (combineTimestamps entry timestamps) = length entry.
Proof. apply (combineTimestamps_prefix entry timestamps); lia. Qed.

Lemma combineTimestamps_lookup (entry timestamps : list Q) (i : nat) :
  combineTimestamps entry timestamps !! i
  = a ← entry !! i;
    Some match timestamps !! i with
         | Some b => Double.add a b
         | None => a
         end.
Proof.
  unfold combineTimestamps.
  destruct (combineTimestamps_prefix entry timestamps
              (length entry `min` length timestamps)) as [_ ->]; [lia|].
  case_decide as Hi.
  - destruct (lookup_lt_is_Some_2 entry i) as [a ->]; [lia|].
    destruct (lookup_lt_is_Some_2 timestamps i) as [b ->]; [lia|]. done.
  - destruct (entry !! i) as [a|] eqn:Ha; [|done]. simpl.
    apply lookup_lt_Some in Ha.
    by rewrite (lookup_ge_None_2 timestamps i) by lia.
Qed.

(** The sum of doubles is rounded: 0.1 + 0.2 is the double above 0.3, and
    0.1 + 1.9 is 2 although the two doubles add up to less; integers are
    added exactly. *)
Lemma add_rounded :
  Double.add (Double.round (1 # 10)) (Double.round (2 # 10))
  = 1351079888211149 # 4503599627370496
  ∧ Double.round (3 # 10) = 5404319552844595 # 18014398509481984
  ∧ Double.add (Double.round (1 # 10)) (Double.round (19 # 10)) = 2%Q
  ∧ (Double.round (1 # 10) + Double.round (19 # 10) < 2)%Q
  ∧ Double.add 100 200 = 300%Q.
Proof. by vm_compute. Qed.

Variable timestampsRecording : bool.
Variable timeout : option Q.
Variable metric : RunLinkTraversalPerformanceMetrics.
Variable respond : nat → string → list StreamEvent.

Lemma calculateMetrics_requests (m : Measurement) (w w' : World) (slots : list Q) :
  calculateMetrics metric m w = Returned slots w' → requests w' = requests w.
Proof.
  unfold calculateMetrics, evaluate. async_unfold.
  repeat case_bool_decide; repeat case_match; intros; by simplify_eq/=.
Qed.

(** What [executeOne] stores is the measurement taken from the promise. *)
Lemma executeOne_returned (data data' : gmap string IBenchmarkResult)
    (setName queryId query : string) (w w' : World) :
  executeOne timestampsRecording timeout metric respond data setName queryId query w
  = Returned data' w' →
  ∃ (m : Measurement) (slots : list Q),
    ((∃ output, consume timestampsRecording timeout newConsumer
                  (respond (requests w) query) = Resolved output
                ∧ m = ofOutput output)
     ∨ (∃ e, consume timestampsRecording timeout newConsumer
               (respond (requests w) query) = Rejected e
             ∧ m = ofError e))
    ∧ data' = store data setName queryId m slots.
Proof.
  executeOne_unfold.
  destruct (consume _ _ _ _) as [output|e|] eqn:Hc; [| |done].
  - destruct (calculateMetrics _ _ _) as [slots w1|?|?] eqn:Hm; [|done..].
    intros [= <- <-]. exists (ofOutput output), slots. eauto.
  - destruct (calculateMetrics _ _ _) as [slots w1|?|?] eqn:Hm; [|done..].
    intros [= <- <-]. exists (ofError e), slots. eauto.
Qed.

(** C10: when a record for [name + id] exists, [executeOne] only replaces
    that record, and in it only [time] (incremented by the measured time),
    [timestamps] (summed elementwise over the common prefix, same length,
    the rest untouched) and [error] (set when the execution failed, never
    cleared); [count], [metricsCalculated], [metadata], [name] and [id] keep
    their values. The sums are the sums of doubles: the exact sum, rounded. *)
Theorem executeOne_merge (data data' : gmap string IBenchmarkResult)
    (setName queryId query : string) (w w' : World) (dataEntry : IBenchmarkResult) :
  data !! (setName +:+ queryId) = Some dataEntry →
  executeOne timestampsRecording timeout metric respond data setName queryId query w
  = Returned data' w' →
  ∃ (m : Measurement) (merged : IBenchmarkResult),
    ((∃ output, consume timestampsRecording timeout newConsumer
                  (respond (requests w) query) = Resolved output
                ∧ m = ofOutput output)
     ∨ (∃ e, consume timestampsRecording timeout newConsumer
               (respond (requests w) query) = Rejected e
             ∧ m = ofError e))
    ∧ data' = <[setName +:+ queryId := merged]> data
    ∧ time merged = Double.add (time dataEntry) (mTime m)
    ∧ length (timestamps merged) = length (timestamps dataEntry)
    ∧ (∀ i, timestamps merged !! i
            = a ← timestamps dataEntry !! i;
              Some match mTimestamps m !! i with
                   | Some b => Double.add a b
                   | None => a
                   end)
    ∧ error merged = error dataEntry || bool_decide (is_Some (errorObject m))
    ∧ count merged = count dataEntry
    ∧ metricsCalculated merged = metricsCalculated dataEntry
    ∧ metadata merged = metadata dataEntry
    ∧ name merged = name dataEntry
    ∧ id merged = id dataEntry.
Proof.
  intros Hentry Hrun.
  destruct (executeOne_returned _ _ _ _ _ _ _ Hrun) as (m & slots & Hm & ->).
  unfold store. rewrite Hentry.
  eexists m, _. split; [exact Hm|]. split; [reflexivity|]. simpl.
  split; [reflexivity|].
  split; [apply combineTimestamps_length|].
  split; [apply combineTimestamps_lookup|].
  split; [|done].
  destruct (errorObject m); simpl; [by rewrite orb_true_r|by rewrite orb_false_r].
Qed.

Lemma consume_progress (c : Consumer) (pre rest : list StreamEvent) :
  Forall (λ event, isProgress event) pre →
  ∃ c', consume timestampsRecording timeout c (pre ++ rest)
        = consume timestampsRecording timeout c' rest
        ∧ cCount c' = (cCount c + rowCount pre)%nat.
Proof.
  intros Hpre. revert c.
  induction Hpre as [|event pre Hevent _ IH]; intros c.
  - exists c. split; [done|]. unfold rowCount. simpl. lia.
  - destruct event; try done; simpl.
    + destruct (IH {| cTrackedTopology := cTrackedTopology c;
                      cContributingDocuments := cContributingDocuments c;
                      cCount := cCount c;
                      cTimestamps := cTimestamps c;
                      cMetadata := readMetadata |}) as (c' & Hc' & Hn).
      exists c'. split; [done|]. rewrite Hn. unfold rowCount.
      rewrite filter_cons_False by (simpl; tauto). done.
    + destruct (IH (onData timestampsRecording c data clock)) as (c' & Hc' & Hn).
      exists c'. split; [done|]. rewrite Hn. unfold rowCount.
      rewrite filter_cons_True by (simpl; tauto).
      unfold onData. destruct data; simpl; lia.
Qed.





(** A stream error after at least one row: the partial output has no
    [contributingDocuments], and reading its [length] throws. *)
Lemma executeOne_partial_rows (data : gmap string IBenchmarkResult)
    (setName queryId query : string) (w : World) (pre post : list StreamEvent)
    (e : JsError) (clock : Q) :
  respond (requests w) query = pre ++ OnError e clock :: post →
  Forall (λ event, isProgress event) pre →
  (0 < rowCount pre)%nat →
  executeOne timestampsRecording timeout metric respond data setName queryId query w
  = Thrown (typeError "length")
      {| requests := S (requests w); evaluatorLog := evaluatorLog w |}.
Proof.
  intros Htrace Hpre Hrows.
  executeOne_unfold.
  rewrite Htrace.
  destruct (consume_progress newConsumer pre (OnError e clock :: post) Hpre)
    as (c' & -> & Hn).
  simpl. unfold calculateMetrics, ofError. simpl.
  rewrite bool_decide_eq_true_2; [done|]. rewrite Hn. simpl. lia.
Qed.

(** A stream error before any row is recorded as a failed zero-row
    execution, and the loop goes on. *)
Lemma executeOne_partial_no_rows (data : gmap string IBenchmarkResult)
    (setName queryId query : string) (w : World) (pre post : list StreamEvent)
    (e : JsError) (clock : Q) :
  respond (requests w) query = pre ++ OnError e clock :: post →
  Forall (λ event, isProgress event) pre →
  rowCount pre = 0%nat →
  data !! (setName +:+ queryId) = None →
  ∃ r, executeOne timestampsRecording timeout metric respond data setName queryId
         query w
       = Returned (<[setName +:+ queryId := r]> data)
           {| requests := S (requests w); evaluatorLog := evaluatorLog w |}
       ∧ count r = 0%nat ∧ error r = true ∧ time r = clock.
Proof.
  intros Htrace Hpre Hrows Hfresh.
  executeOne_unfold.
  rewrite Htrace.
  destruct (consume_progress newConsumer pre (OnError e clock :: post) Hpre)
    as (c' & -> & Hn).
  simpl. unfold calculateMetrics, ofError. simpl.
  rewrite bool_decide_eq_false_2 by (rewrite Hn, Hrows; simpl; lia).
  unfold store. rewrite Hfresh. simpl. eexists. split; [reflexivity|].
  simpl. rewrite Hn, Hrows. done.
Qed.

(** [Math.floor(x / n)] is the integer floor division of [x] by [n]. *)
Lemma floorDiv_bounds (x : Q) (n : nat) :
  (0 < n)%nat →
  let z := Qfloor (x / inject_Z (Z.of_nat n)) in
  floorDiv x n = inject_Z z
  ∧ (inject_Z z * inject_Z (Z.of_nat n) <= x)%Q
  ∧ (x < (inject_Z z + 1) * inject_Z (Z.of_nat n))%Q.
Proof.
  intros Hn z. split; [reflexivity|].
  assert (Hpos : (0 < inject_Z (Z.of_nat n))%Q).
  { change 0%Q with (inject_Z 0). rewrite <- Zlt_Qlt. lia. }
  assert (Hnz : ¬ (inject_Z (Z.of_nat n) == 0)%Q).
  { intros Heq. rewrite Heq in Hpos. by apply Qlt_irrefl in Hpos. }
  split.
  - apply Qle_trans with (x / inject_Z (Z.of_nat n) * inject_Z (Z.of_nat n))%Q.
    + apply Qmult_le_compat_r; [apply Qfloor_le | by apply Qlt_le_weak].
    + rewrite Qmult_comm, Qmult_div_r by done. apply Qle_refl.
  - apply Qle_lt_trans with (x / inject_Z (Z.of_nat n) * inject_Z (Z.of_nat n))%Q.
    + rewrite Qmult_comm, Qmult_div_r by done. apply Qle_refl.
    + apply Qmult_lt_compat_r; [done|].
      change 1%Q with (inject_Z 1). rewrite <- inject_Z_plus. apply Qlt_floor.
Qed.

(** No iteration: nothing is sent and the map is returned as it is. *)
Lemma executeQueries_zero (querySets : list (string * list string))
    (data : gmap string IBenchmarkResult) (w : World) :
  executeQueries querySets timestampsRecording timeout metric respond data 0 w
  = Returned data w.
Proof. reflexivity. Qed.




End RunnerFacts.

(** C1 fails on the code: five rows followed by a stream error make
    [executeQueries] throw a [TypeError] (the partial output carries no
    [contributingDocuments], whose [length] is read as soon as the count is
    positive), so [run] is aborted after the first request: no record is
    returned and the second query is never sent. *)
Theorem run_rows_then_error_aborts :
  Runner.rowCount Sample.fiveRowsThenError = 5%nat
  ∧ Runner.executeQueries Sample.twoQueries true None Sample.metric
      Sample.respondFailing ∅ 1 Sample.world
    = Runner.Thrown (Runner.typeError "length") (Sample.sent 1)
  ∧ Runner.run Sample.twoQueries 1 0 true None Sample.metric Sample.respondFailing
      Sample.world
    = Runner.Thrown (Runner.typeError "length") (Sample.sent 1).
Proof.
  split; [reflexivity|].
  assert (Hone : ∀ data,
    Runner.executeOne true None Sample.metric Sample.respondFailing data "q" "0"
      "SELECT * WHERE { ?s ?p ?o }" Sample.world
    = Runner.Thrown (Runner.typeError "length") (Sample.sent 1)).
  { intros data.
    apply (executeOne_partial_rows true None Sample.metric Sample.respondFailing data
             "q" "0" _ Sample.world
             [Runner.OnData Runner.PlainRow 1; Runner.OnData Runner.PlainRow 2;
              Runner.OnData Runner.PlainRow 3; Runner.OnData Runner.PlainRow 4;
              Runner.OnData Runner.PlainRow 5] [] Sample.boom 6).
    - reflexivity.
    - by repeat constructor.
    - vm_compute. lia. }
  assert (Hall : Runner.executeQueries Sample.twoQueries true None Sample.metric
                   Sample.respondFailing ∅ 1 Sample.world
                 = Runner.Thrown (Runner.typeError "length") (Sample.sent 1)).
  { unfold Runner.executeQueries, Sample.twoQueries.
    cbn [seq Runner.foldM]. unfold Runner.executeSet at 1.
    cbn [imap Runner.foldM fst snd].
    change (pretty 0%nat) with "0".
    async_unfold. by rewrite Hone. }
  split; [exact Hall|].
  unfold Runner.run. async_unfold.
  rewrite executeQueries_zero. by rewrite Hall.
Qed.



Lemma executeOne_merge_witness :
  ∃ merged,
    Runner.executeOne true None Sample.metric Sample.respondOneRow Sample.recorded
      "q" "0" "ASK { ?s ?p ?o }" Sample.world
    = Runner.Returned (<["q0" := merged]> Sample.recorded) (Sample.sent 1)
    ∧ Runner.time merged = 130%Q
    ∧ Runner.timestamps merged !! 0%nat = Some 15%Q
    ∧ Runner.timestamps merged !! 1%nat = Some 20%Q
    ∧ Runner.count merged = 2%nat
    ∧ length (Runner.timestamps merged) = 2%nat.
Proof.
  destruct (executeOne_merge true None Sample.metric Sample.respondOneRow
              Sample.recorded (<["q0" := Sample.mergedRecord]> Sample.recorded)
              "q" "0" "ASK { ?s ?p ?o }" Sample.world (Sample.sent 1)
              Sample.firstRecord)
    as (m & merged & Hm & Hdata & Htime & Hlength & Hstamps & _ & Hcount & _).
  - reflexivity.
  - reflexivity.
  - exists merged.
    destruct Hm as [(output & Hc & ->)|(e & Hc & _)]; [|discriminate Hc].
    injection Hc as <-.
    split; [change ("q" +:+ "0") with "q0" in Hdata; by rewrite <- Hdata|].
    split; [by rewrite Htime|].
    split; [by rewrite Hstamps|].
    split; [by rewrite Hstamps|].
    split; [exact Hcount | exact Hlength].
Defined.

(** ** The sequence aggregator *)

Section AggregatorFacts.
Import Aggregator.

Lemma hasTemplate_relabel (heap : gmap nat IResult) (l : nat) (r : IResult)
    (t : string) (l' : nat) :
  heap !! l = Some r →
  hasTemplate (<[l := relabel r]> heap) t l' = hasTemplate heap t l'.
Proof.
  intros Hl. unfold hasTemplate. destruct (decide (l = l')) as [<-|Hne].
  - by rewrite lookup_insert_eq, Hl.
  - by rewrite lookup_insert_ne.
Qed.


(** A turn of the loop for a template that is not an inherited name. *)
Lemma groupStep_normal (heap : gmap nat IResult) (templates : gmap string (list nat))
    (l : nat) (r : IResult) :
  heap !! l = Some r →
  Prototype.isInherited (template r) = false →
  ∃ templates',
    groupStep (heap, Normal templates) l = (<[l := relabel r]> heap, Normal templates')
    ∧ ∀ t, templates' !! t
           = if decide (template r = t)
             then Some (default [] (templates !! t) ++ [l])
             else templates !! t.
Proof.
  intros Hr Hown. unfold groupStep, Prototype.has. cbn [fst snd]. rewrite Hr, Hown.
  destruct (templates !! template r) as [group|] eqn:Hgroup.
  - rewrite bool_decide_eq_true_2 by done. cbn [orb]. rewrite Hgroup.
    eexists. split; [reflexivity|]. intros t.
    destruct (decide (template r = t)) as [<-|Hne].
    + by rewrite lookup_insert_eq, Hgroup.
    + by rewrite lookup_insert_ne.
  - rewrite bool_decide_eq_false_2 by (by intros [? ?]). cbn [orb].
    rewrite lookup_insert_eq.
    eexists. split; [reflexivity|]. intros t.
    destruct (decide (template r = t)) as [<-|Hne].
    + by rewrite lookup_insert_eq, Hgroup.
    + by rewrite !lookup_insert_ne.
Qed.


Lemma groupStep_fold (results : list nat) (heap : gmap nat IResult)
    (templates : gmap string (list nat)) :
  NoDup results →
  (∀ l, l ∈ results → is_Some (heap !! l)) →
  (∀ l r, l ∈ results → heap !! l = Some r →
          Prototype.isInherited (template r) = false) →
  ∃ groups,
    (foldl groupStep (heap, Normal templates) results).2 = Normal groups
    ∧ (∀ t,
         groups !! t
         = match filter (λ l, hasTemplate heap t l) results with
           | [] => templates !! t
           | members => Some (default [] (templates !! t) ++ members)
           end)
    ∧ (∀ l,
         (foldl groupStep (heap, Normal templates) results).1 !! l
         = if decide (l ∈ results) then relabel <$> heap !! l else heap !! l).
Proof.
  revert heap templates.
  induction results as [|l results IH]; intros heap templates Hnodup Hdefined Hown.
  - exists templates. split; [done|]. split; [done|].
    intros l. by rewrite decide_False by apply not_elem_of_nil.
  - apply NoDup_cons in Hnodup as [Hfresh Hnodup].
    destruct (Hdefined l) as [r Hr]; [apply elem_of_cons; by left|].
    destruct (groupStep_normal heap templates l r Hr) as (templates' & Hstep & Hnew).
    { eapply Hown; [apply elem_of_cons; by left|done]. }
    cbn [foldl]. rewrite Hstep.
    destruct (IH (<[l := relabel r]> heap) templates' Hnodup) as (groups & Hg & IHg & IHh).
    { intros l' Hl'. destruct (decide (l = l')) as [<-|Hne].
      - by rewrite lookup_insert_eq.
      - rewrite lookup_insert_ne by done. apply Hdefined, elem_of_cons. by right. }
    { intros l' r' Hl'. destruct (decide (l = l')) as [<-|Hne]; [done|].
      rewrite lookup_insert_ne by done. apply Hown, elem_of_cons. by right. }
    exists groups. split; [done|]. split.
    + intros t. rewrite IHg.
      rewrite (list_filter_iff _ (λ l', hasTemplate heap t l'))
        by (intros l'; by rewrite (hasTemplate_relabel heap l r t l' Hr)).
      rewrite filter_cons, Hnew.
      assert (Hl : hasTemplate heap t l = bool_decide (template r = t))
        by (unfold hasTemplate; by rewrite Hr).
      destruct (decide (template r = t)) as [<-|Hne].
      * rewrite decide_True by (rewrite Hl; by apply bool_decide_pack).
        cbn [default]. destruct (filter _ results); simpl; [done|].
        by rewrite <- app_assoc.
      * by rewrite decide_False by (rewrite Hl; by intros ?%bool_decide_unpack).
    + intros l'. rewrite IHh. destruct (decide (l = l')) as [<-|Hne].
      * rewrite decide_False by done.
        rewrite decide_True by (apply elem_of_cons; by left).
        by rewrite lookup_insert_eq, Hr.
      * rewrite lookup_insert_ne by done.
        destruct (decide (l' ∈ results)).
        -- by rewrite decide_True by (apply elem_of_cons; by right).
        -- rewrite decide_False; [done|].
           rewrite elem_of_cons. intros [?|?]; by simplify_eq.
Qed.




End AggregatorFacts.


Section StatisticsGeneric.
Import Aggregator.
Context {arithmetic : Arithmetic}.
Local Open Scope R_scope.

(** When the error-free members carry the numbers [xs], the filter of the
    first loop keeps exactly the error-free members. *)
Lemma filter_successful_numeric (group : list IResult) (xs : list R) :
  map httpRequests (filter (λ r, negb (error r)) group) = map JNumber xs →
  filter (λ res, negb (error res) && typeofNumber (httpRequests res)) group
  = filter (λ r, negb (error r)) group.
Proof.
  revert xs. induction group as [|r group IH]; intros xs Hxs; [done|].
  destruct (error r) eqn:Herror.
  - rewrite filter_cons_False in Hxs by (rewrite Herror; simpl; tauto).
    rewrite !filter_cons_False by (rewrite Herror; simpl; tauto). eauto.
  - rewrite filter_cons_True in Hxs by (rewrite Herror; simpl; tauto).
    destruct xs as [|x xs]; [done|]. simpl in Hxs. injection Hxs as Hx Hxs.
    rewrite !filter_cons_True by (rewrite Herror, ?Hx; simpl; tauto).
    f_equal. eauto.
Qed.

(** The members the first loop visits carry the counted numbers. *)
Lemma filter_counted (group : list IResult) :
  map httpRequests
      (filter (λ res, negb (error res) && typeofNumber (httpRequests res)) group)
  = map JNumber (counted group).
Proof.
  unfold counted. induction group as [|r group IH]; [done|].
  cbn [omap list_omap]. destruct (error r) eqn:Herror.
  - rewrite filter_cons_False by (rewrite Herror; simpl; tauto). exact IH.
  - destruct (httpRequests r) eqn:Hvalue.
    1-3: rewrite filter_cons_False by (rewrite Herror, Hvalue; simpl; tauto); exact IH.
    rewrite filter_cons_True by (rewrite Herror, Hvalue; simpl; tauto).
    cbn [map]. by rewrite Hvalue, IH.
Qed.

(** When the error-free members carry the numbers [xs], these are the
    counted numbers and the operands of the second loop, and there are as
    many of them as error-free members. *)
Lemma counted_numeric (group : list IResult) (xs : list R) :
  map httpRequests (filter (λ r, negb (error r)) group) = map JNumber xs →
  counted group = xs
  ∧ errorFree group = Finite <$> xs
  ∧ length xs = length (filter (λ r, negb (error r)) group).
Proof.
  intros Hxs. split; [|split].
  - pose proof (filter_counted group) as Hcounted.
    rewrite (filter_successful_numeric group xs Hxs), Hxs in Hcounted.
    clear Hxs. revert Hcounted. generalize (counted group). clear.
    induction xs as [|x xs IH]; intros [|y ys] Hmap; try done.
    simpl in Hmap. injection Hmap as -> Hmap. f_equal. by apply IH.
  - unfold errorFree. revert Hxs. generalize (filter (λ r, negb (error r)) group).
    clear. intros rs. revert xs.
    induction rs as [|r rs IH]; intros [|x xs] Hxs; try done.
    simpl in Hxs. injection Hxs as Hx Hxs. cbn [fmap list_fmap].
    rewrite Hx. cbn [toNumber]. f_equal. by apply IH.
  - apply (f_equal length) in Hxs. by rewrite !length_map in Hxs.
Qed.

Lemma tallyStep_fold (rs : list IResult) (xs : list R) (t : Tally) (s mx mn : R) :
  map httpRequests rs = map JNumber xs →
  (0 < successfulExecutions t)%nat →
  requestsSum t = Finite s → requestsMax t = Finite mx → requestsMin t = Finite mn →
  foldl tallyStep t rs
  = {| requestsSum := Finite (foldl addition s xs);
       requestsMax := Finite (foldl Rmax mx xs);
       requestsMin := Finite (foldl Rmin mn xs);
       successfulExecutions := (successfulExecutions t + length xs)%nat |}.
Proof.
  revert xs t s mx mn.
  induction rs as [|r rs IH]; intros [|x xs] t s mx mn Hxs Hn Hs Hmx Hmn;
    try done; simpl in *.
  - destruct t. simpl in *. subst. f_equal. lia.
  - injection Hxs as Hx Hxs.
    rewrite (IH xs _ (addition s x) (Rmax mx x) (Rmin mn x)); try done.
    + simpl. f_equal. lia.
    + simpl. lia.
    + simpl. rewrite bool_decide_eq_true_2 by done. by rewrite Hs, Hx.
    + simpl. rewrite bool_decide_eq_true_2 by done. by rewrite Hmx, Hx.
    + simpl. rewrite bool_decide_eq_true_2 by done. by rewrite Hmn, Hx.
Qed.

(** The first loop: the sum (from left to right), the greatest and the
    least of the counted numbers, and how many they are. *)
Lemma tally_counted (group : list IResult) :
  tally group
  = match counted group with
    | [] =>
        {| requestsSum := Finite 0; requestsMax := Finite 0; requestsMin := Finite 0;
           successfulExecutions := 0 |}
    | x :: rest =>
        {| requestsSum := Finite (foldl addition x rest);
           requestsMax := Finite (foldl Rmax x rest);
           requestsMin := Finite (foldl Rmin x rest);
           successfulExecutions := S (length rest) |}
    end.
Proof.
  unfold tally. pose proof (filter_counted group) as Hxs.
  destruct (filter _ group) as [|r rs], (counted group) as [|x rest]; try done.
  simpl in Hxs. injection Hxs as Hx Hxs. cbn [foldl].
  rewrite (tallyStep_fold rs rest _ x x x Hxs); simpl; try done.
  - lia.
  - by rewrite Hx.
  - by rewrite Hx.
  - by rewrite Hx.
Qed.

(** A record whose [httpRequests] is not a number never reaches the first
    loop, whatever its error flag: sum, maximum, minimum and count ignore it. *)
Lemma tally_skips_non_number (before after : list IResult) (r : IResult) :
  typeofNumber (httpRequests r) = false →
  tally (before ++ r :: after) = tally (before ++ after).
Proof.
  intros Hr. unfold tally. rewrite !filter_app.
  rewrite filter_cons_False; [done|].
  rewrite Hr, andb_false_r. simpl. tauto.
Qed.

(** The second loop visits the error-free members, whatever they carry. *)
Lemma squaredDeviations_errorFree (mean : jsnumber) (group : list IResult) :
  squaredDeviations mean group
  = foldl (λ std d, add std (square (sub d mean))) (Finite 0) (errorFree group).
Proof.
  unfold squaredDeviations, errorFree. generalize (Finite 0).
  induction group as [|r group IH]; intros std; [done|].
  cbn [foldl]. destruct (error r) eqn:Herror.
  - rewrite filter_cons_False by (rewrite Herror; simpl; tauto). apply IH.
  - rewrite filter_cons_True by (rewrite Herror; simpl; tauto).
    cbn [fmap list_fmap foldl]. apply IH.
Qed.

Lemma squaredDeviations_finite (mean a : R) (xs : list R) :
  foldl (λ std d, add std (square (sub d (Finite mean)))) (Finite a) (Finite <$> xs)
  = Finite (foldl (λ acc h, addition acc (squaring (subtraction h mean))) a xs).
Proof.
  revert a. induction xs as [|x xs IH]; intros a; [done|].
  cbn [fmap list_fmap foldl]. apply IH.
Qed.






End StatisticsGeneric.


Section StatisticsFacts.
Import Aggregator.
(** The statements of this section are about the arithmetic of the reals. *)
#[local] Existing Instance exact.
Local Open Scope R_scope.

Lemma foldl_Rplus_sumR (s : R) (xs : list R) : foldl Rplus s xs = s + sumR xs.
Proof.
  unfold sumR. revert s. induction xs as [|x xs IH]; intros s; simpl.
  - lra.
  - rewrite IH. lra.
Qed.

Lemma foldl_deviations_sumR (mean a : R) (xs : list R) :
  foldl (λ acc x, acc + (x - mean) * (x - mean)) a xs
  = a + sumR (map (λ x, (x - mean) ^ 2) xs).
Proof.
  unfold sumR. revert a.
  induction xs as [|x xs IH]; intros a; cbn [foldl foldr map].
  - lra.
  - rewrite IH. ring.
Qed.

Lemma tally_numeric (group : list IResult) (x : R) (rest : list R) :
  map httpRequests (filter (λ r, negb (error r)) group) = map JNumber (x :: rest) →
  tally group
  = {| requestsSum := Finite (foldl Rplus x rest);
       requestsMax := Finite (foldl Rmax x rest);
       requestsMin := Finite (foldl Rmin x rest);
       successfulExecutions := S (length rest) |}.
Proof.
  intros Hxs. destruct (counted_numeric group _ Hxs) as (Hcounted & _).
  by rewrite tally_counted, Hcounted.
Qed.

Lemma tally_no_success (group : list IResult) :
  map httpRequests (filter (λ r, negb (error r)) group) = map JNumber [] →
  successfulExecutions (tally group) = 0%nat.
Proof.
  intros Hxs. destruct (counted_numeric group _ Hxs) as (Hcounted & _).
  by rewrite tally_counted, Hcounted.
Qed.

Lemma squaredDeviations_numeric (group : list IResult) (xs : list R) (mean : R) :
  map httpRequests (filter (λ r, negb (error r)) group) = map JNumber xs →
  squaredDeviations (Finite mean) group
  = Finite (sumR (map (λ x, (x - mean) ^ 2) xs)).
Proof.
  intros Hxs. destruct (counted_numeric group _ Hxs) as (_ & Hfree & _).
  rewrite squaredDeviations_errorFree, Hfree, squaredDeviations_finite.
  cbn [addition subtraction squaring exact].
  rewrite foldl_deviations_sumR. f_equal. lra.
Qed.

Lemma statistics_ten_twenty (group : list IResult) :
  map httpRequests (filter (λ r, negb (error r)) group) = map JNumber [10; 20] →
  tally group
  = {| requestsSum := Finite 30; requestsMax := Finite 20; requestsMin := Finite 10;
       successfulExecutions := 2 |}.
Proof.
  intros Hxs. rewrite (tally_numeric group 10 [20] Hxs). cbn [foldl length].
  f_equal; f_equal.
  - lra.
  - apply Rmax_right. lra.
  - apply Rmin_left. lra.
Qed.

Lemma sqrt_25 : sqrt 25 = 5.
Proof. replace 25 with (5 * 5) by lra. apply sqrt_square. lra. Qed.

(** [foldl Rmax x rest] is the greatest and [foldl Rmin x rest] the least
    element of [x :: rest]. *)
Lemma foldl_Rmax_greatest (x : R) (rest : list R) :
  foldl Rmax x rest ∈ x :: rest ∧ ∀ y, y ∈ x :: rest → y <= foldl Rmax x rest.
Proof.
  revert x. induction rest as [|z rest IH]; intros x; cbn [foldl].
  - split; [apply elem_of_cons; by left|].
    intros y Hy. apply elem_of_cons in Hy as [->|Hy]; [lra|].
    by apply elem_of_nil in Hy.
  - destruct (IH (Rmax x z)) as [Hin Hle]. split.
    + apply elem_of_cons in Hin as [Hin|Hin].
      * rewrite Hin. unfold Rmax. destruct (Rle_dec x z).
        -- apply elem_of_cons. right. apply elem_of_cons. by left.
        -- apply elem_of_cons. by left.
      * apply elem_of_cons. right. apply elem_of_cons. by right.
    + intros y Hy.
      assert (Hhead : Rmax x z <= foldl Rmax (Rmax x z) rest)
        by (apply Hle, elem_of_cons; by left).
      apply elem_of_cons in Hy as [->|Hy].
      * pose proof (Rmax_l x z). lra.
      * apply elem_of_cons in Hy as [->|Hy].
        -- pose proof (Rmax_r x z). lra.
        -- apply Hle, elem_of_cons. by right.
Qed.

Lemma foldl_Rmin_least (x : R) (rest : list R) :
  foldl Rmin x rest ∈ x :: rest ∧ ∀ y, y ∈ x :: rest → foldl Rmin x rest <= y.
Proof.
  revert x. induction rest as [|z rest IH]; intros x; cbn [foldl].
  - split; [apply elem_of_cons; by left|].
    intros y Hy. apply elem_of_cons in Hy as [->|Hy]; [lra|].
    by apply elem_of_nil in Hy.
  - destruct (IH (Rmin x z)) as [Hin Hle]. split.
    + apply elem_of_cons in Hin as [Hin|Hin].
      * rewrite Hin. unfold Rmin. destruct (Rle_dec x z).
        -- apply elem_of_cons. by left.
        -- apply elem_of_cons. right. apply elem_of_cons. by left.
      * apply elem_of_cons. right. apply elem_of_cons. by right.
    + intros y Hy.
      assert (Hhead : foldl Rmin (Rmin x z) rest <= Rmin x z)
        by (apply Hle, elem_of_cons; by left).
      apply elem_of_cons in Hy as [->|Hy].
      * pose proof (Rmin_l x z). lra.
      * apply elem_of_cons in Hy as [->|Hy].
        -- pose proof (Rmin_r x z). lra.
        -- apply Hle, elem_of_cons. by right.
Qed.

(** The statistics of a group whose error-free members carry the numbers
    [xs]. *)
Lemma httpRequestsStatistics_numeric (group : list IResult) (xs : list R) :
  map httpRequests (filter (λ r, negb (error r)) group) = map JNumber xs →
  httpRequestsStatistics group
  = match xs with
    | [] => None
    | x :: rest =>
        let n := INR (length xs) in
        let mean := sumR xs / n in
        Some {| statMean := Finite mean;
                statMax := Finite (foldl Rmax x rest);
                statMin := Finite (foldl Rmin x rest);
                statStd :=
                  Finite (sqrt (sumR (map (λ h, (h - mean) ^ 2) xs) / n)) |}
    end.
Proof.
  destruct xs as [|x rest]; intros Hxs; unfold httpRequestsStatistics.
  - by rewrite (tally_no_success group Hxs).
  - rewrite (tally_numeric group x rest Hxs). cbn [successfulExecutions].
    rewrite bool_decide_eq_true_2 by lia.
    cbn [requestsSum requestsMax requestsMin div lift2 length division exact].
    rewrite foldl_Rplus_sumR.
    change (x + sumR rest) with (sumR (x :: rest)).
    by rewrite (squaredDeviations_numeric group (x :: rest) _ Hxs).
Qed.

Lemma httpRequestsStatistics_ten_twenty (group : list IResult) :
  map httpRequests (filter (λ r, negb (error r)) group) = map JNumber [10; 20] →
  httpRequestsStatistics group
  = Some {| statMean := Finite 15; statMax := Finite 20; statMin := Finite 10;
            statStd := Finite 5 |}.
Proof.
  intros Hxs. rewrite (httpRequestsStatistics_numeric group [10; 20] Hxs).
  cbn [length sumR foldr foldl map]. f_equal. f_equal.
  - f_equal. simpl. lra.
  - f_equal. apply Rmax_right. lra.
  - f_equal. apply Rmin_left. lra.
  - f_equal. rewrite <- sqrt_25. f_equal. simpl. lra.
Qed.

(** C4 fails on the code for the standard deviation: an execution without
    an error flag whose [httpRequests] is [undefined] is left out of the
    mean, the maximum and the minimum, but the second loop only tests the
    error flag, so it enters the sum of squared deviations and the standard
    deviation of 10, 20 and that execution is [NaN] instead of 5. *)
Theorem httpRequestsStatistics_uncounted :
  httpRequestsStatistics Sample.tenTwentyUncounted
  = Some {| statMean := Finite 15; statMax := Finite 20; statMin := Finite 10;
            statStd := NotANumber |}
  ∧ httpRequestsStatistics (take 2 Sample.tenTwentyUncounted)
    = Some {| statMean := Finite 15; statMax := Finite 20; statMin := Finite 10;
              statStd := Finite 5 |}.
Proof.
  split.
  - unfold httpRequestsStatistics.
    assert (Htally : tally Sample.tenTwentyUncounted
                     = {| requestsSum := Finite 30; requestsMax := Finite 20;
                          requestsMin := Finite 10; successfulExecutions := 2 |}).
    { change Sample.tenTwentyUncounted
        with (take 2 Sample.tenTwentyUncounted
              ++ Sample.execution false JUndefined :: []).
      rewrite tally_skips_non_number, app_nil_r by done.
      by apply statistics_ten_twenty. }
    rewrite Htally. cbn [successfulExecutions].
    rewrite bool_decide_eq_true_2 by lia. cbn. f_equal. f_equal. f_equal. lra.
  - by apply httpRequestsStatistics_ten_twenty.
Qed.
End StatisticsFacts.

(** ** The metadata loader *)

Section LoaderFacts.
Import Loader.

Lemma findArrayField_fold (parsed : object) (found : ArrayField) :
  foldl (λ (found : ArrayField) '(key, value),
           match value with
           | JsonArray elements =>
               {| arrayKey := Some key; arrayValue := Some elements |}
           | _ => found
           end) found parsed
  = match last (arrayFields parsed) with
    | Some (key, elements) => {| arrayKey := Some key; arrayValue := Some elements |}
    | None => found
    end.
Proof.
  revert found. induction parsed as [|[key value] parsed IH]; intros found; [done|].
  cbn [foldl]. rewrite IH. unfold arrayFields. cbn [omap list_omap fst snd].
  fold (arrayFields parsed).
  destruct value; try done.
  destruct (arrayFields parsed) as [|next rest] eqn:Hrest; [reflexivity|].
  rewrite last_cons_cons.
  destruct (last (next :: rest)) as [[]|] eqn:Hlast; [done|].
  by apply last_None in Hlast.
Qed.

Lemma findArrayField_last (parsed : object) :
  findArrayField parsed
  = match last (arrayFields parsed) with
    | Some (key, elements) => {| arrayKey := Some key; arrayValue := Some elements |}
    | None => {| arrayKey := None; arrayValue := None |}
    end.
Proof. apply findArrayField_fold. Qed.

(** C6, as stated, fails for more than one array-valued field: a file with
    the two array fields xs and ys is loaded without error, from ys. *)
Lemma loadMetadataFile_two_arrays :
  length (arrayFields Sample.twoArrays) = 2%nat
  ∧ loadMetadataFile Sample.twoArrays
    = Normal [[("template", JsonString "t"); ("y", JsonNumber 2)];
              [("template", JsonString "t"); ("y", JsonNumber 3)]].
Proof. split; reflexivity. Qed.

(** C6, amended: loading a metadata file fails when it has no array-valued
    field; when it has one or more, the last of them (in enumeration order,
    its name not empty) is the one loaded, and one metadata object is built
    per element from the non-array fields. *)
Theorem loadMetadataFile_array_fields (parsed : object) :
  (arrayFields parsed = [] →
   loadMetadataFile parsed = Abrupt "queries metadata has no array entry")
  ∧ (∀ key elements,
       last (arrayFields parsed) = Some (key, elements) →
       key ≠ "" →
       loadMetadataFile parsed
       = Normal (map (λ element, setField (dropLast key) element (baseFields parsed))
                     elements)).
Proof.
  unfold loadMetadataFile. rewrite findArrayField_last. split.
  - by intros ->.
  - intros key elements -> Hkey. cbn [arrayValue arrayKey].
    destruct (String.eqb_spec key ""); [done|reflexivity].
Qed.
End LoaderFacts.

Lemma loadMetadataFile_array_fields_witness :
  Loader.loadMetadataFile Sample.noArray
  = Abrupt "queries metadata has no array entry"
  ∧ Loader.loadMetadataFile Sample.twoArrays
    = Normal (map (λ element,
                     Loader.setField "y" element [("template", Loader.JsonString "t")])
                  [Loader.JsonNumber 2; Loader.JsonNumber 3]).
Proof.
  split.
  - apply (proj1 (loadMetadataFile_array_fields Sample.noArray)). reflexivity.
  - apply (proj2 (loadMetadataFile_array_fields Sample.twoArrays) "ys"
             [Loader.JsonNumber 2; Loader.JsonNumber 3]).
    + reflexivity.
    + discriminate.
Defined.

(** * Further properties of the sources *)

(** ** Metric input preparation *)

Section MetricInputFacts.
Import Metric.

Lemma collectRoots_elem (k x : nat) (nodeMetaData : list NodeMetadata) :
  x ∈ collectRoots k nodeMetaData
  ↔ ∃ i m, nodeMetaData !! i = Some m ∧ hasParent m = false ∧ x = (k + i + 1)%nat.
Proof.
  revert k. induction nodeMetaData as [|m rest IH]; intros k; simpl.
  - rewrite elem_of_nil. split; [done|]. by intros (i & m & ? & _).
  - destruct (hasParent m) eqn:Hm.
    + rewrite IH. split.
      * intros (i & m' & Hi & Hp & ->). exists (S i), m'. split; [done|]. split; [done|lia].
      * intros ([|i] & m' & Hi & Hp & ->); simplify_eq/=; [congruence|].
        exists i, m'. split; [done|]. split; [done|lia].
    + rewrite elem_of_cons, IH. split.
      * intros [->|(i & m' & Hi & Hp & ->)].
        -- exists 0%nat, m. split; [done|]. split; [done|lia].
        -- exists (S i), m'. split; [done|]. split; [done|lia].
      * intros ([|i] & m' & Hi & Hp & ->); simplify_eq/=.
        -- left. lia.
        -- right. exists i, m'. split; [done|]. split; [done|lia].
Qed.

Lemma collectRoots_sorted (k : nat) (nodeMetaData : list NodeMetadata) :
  StronglySorted lt (collectRoots k nodeMetaData).
Proof.
  revert k. induction nodeMetaData as [|m rest IH]; intros k; simpl.
  - constructor.
  - destruct (hasParent m); [apply IH|].
    constructor; [apply IH|]. apply Forall_forall. intros x Hx.
    apply collectRoots_elem in Hx as (i & _ & _ & _ & ->). lia.
Qed.

(** X1: the root set of the metric input holds exactly the one-indexed
    positions of the nodes without parent, in increasing order and without
    repetition, each at most the node count; when every node has a parent it
    is empty. *)
Theorem prepareMetricInput_roots (topology : ITraversalTopology)
    (docs : list (list string)) (metricType : topologyType) :
  let input := prepareMetricInput topology docs metricType in
  (∀ k, k ∈ roots input
        ↔ ∃ i m, metadataNode topology !! i = Some m ∧ hasParent m = false
                 ∧ k = S i)
  ∧ StronglySorted lt (roots input)
  ∧ Forall (λ k, (1 ≤ k ≤ numNodes input)%nat) (roots input)
  ∧ (Forall (λ m, hasParent m = true) (metadataNode topology) → roots input = []).
Proof.
  intros input. subst input. cbn [prepareMetricInput roots numNodes].
  assert (Helem : ∀ k, k ∈ collectRoots 0 (metadataNode topology)
            ↔ ∃ i m, metadataNode topology !! i = Some m ∧ hasParent m = false
                     ∧ k = S i).
  { intros k. rewrite collectRoots_elem. 
    split; intros (i & m & Hi & Hp & ->); exists i, m; (split; [done|]); (split; [done|lia]). }
  split; [exact Helem|]. split; [apply collectRoots_sorted|]. split.
  - apply Forall_forall. intros k Hk. apply Helem in Hk as (i & m & Hi & _ & ->).
    apply lookup_lt_Some in Hi. lia.
  - intros Hall. apply elem_of_nil_inv. intros k Hk.
    apply Helem in Hk as (i & m & Hi & Hp & _).
    rewrite Forall_forall in Hall.
    assert (hasParent m = true) by (apply Hall; by eapply list_elem_of_lookup_2).
    congruence.
Qed.

(** X2: the contributing-node groups mirror the contributing documents:
    same number of groups, same group sizes, and the j-th node of a group is
    the index of the j-th document plus one when the document is a key of
    [nodeToIndex]; otherwise it is NaN, unless the document is named like a
    property that [nodeToIndex] inherits from [Object.prototype], in which
    case it is not a number but a string that ends in 1. *)
Theorem prepareMetricInput_contributingNodes (topology : ITraversalTopology)
    (docs : list (list string)) (metricType : topologyType) :
  let input := prepareMetricInput topology docs metricType in
  length (contributingNodes input) = length docs
  ∧ ∀ g group, docs !! g = Some group →
      ∃ nodes, contributingNodes input !! g = Some nodes
               ∧ length nodes = length group
               ∧ ∀ j y, group !! j = Some y →
                   nodes !! j
                   = Some match nodeToIndex topology !! y with
                          | Some i => ANumber (Num (i + 1))
                          | None =>
                              if Prototype.isInherited y
                              then AString (Prototype.text y +:+ "1")
                              else ANumber NaN
                          end.
Proof.
  intros input. subst input. cbn [prepareMetricInput contributingNodes].
  split; [apply length_map|].
  intros g group Hg. eexists. split.
  - change (map ?f docs) with (f <$> docs). by rewrite list_lookup_fmap, Hg.
  - split; [apply length_map|]. intros j y Hy.
    change (map ?f group) with (f <$> group). by rewrite list_lookup_fmap, Hy.
Qed.

(** X3: the conversion keeps the number of edges and always yields three
    components per edge, whatever the input edge holds: components beyond
    the third are dropped, the source is NaN exactly when the edge is empty,
    the target is NaN exactly when the edge has fewer than two components,
    and the weight is always a number different from zero. *)
Theorem convertZeroIndexedToOneIndexed_shape (edgeList : list (list Q)) :
  length (convertZeroIndexedToOneIndexed edgeList) = length edgeList
  ∧ ∀ i x, edgeList !! i = Some x →
      ∃ source target weight,
        convertZeroIndexedToOneIndexed edgeList !! i
        = Some [source; target; Num weight]
        ∧ (source = NaN ↔ x = [])
        ∧ (target = NaN ↔ (length x < 2)%nat)
        ∧ ¬ (weight == 0)%Q.
Proof.
  split; [apply length_map|]. intros i x Hx.
  assert (Hweight : ∃ weight, orOne (x !! 2%nat) = Num weight ∧ ¬ (weight == 0)%Q).
  { unfold orOne. destruct (x !! 2%nat) as [w|]; [|by exists 1%Q].
    destruct (Qeq_bool w 0) eqn:Hw; [by exists 1%Q|].
    exists w. split; [done|]. intros Heq. apply Qeq_bool_iff in Heq. congruence. }
  destruct Hweight as (weight & Hweight & Hnz).
  exists (plusOne (x !! 0%nat)), (plusOne (x !! 1%nat)), weight.
  split; [|split; [|split; [|done]]].
  - clear Hnz. revert i Hx. induction edgeList as [|y edgeList IH]; intros [|i] Hx;
      simplify_eq/=; [by rewrite Hweight | by apply IH].
  - destruct x; simpl; split; done.
  - destruct x as [|a [|b x]]; simpl; split; (done || lia).
Qed.
End MetricInputFacts.

(** ** Streamed execution of one query *)

Section StreamFacts.
Import Metric Runner Trace.
Variable timestampsRecording : bool.
Variable timeout : option Q.

Lemma default_last_cons {A} (d x : A) (l : list A) :
  default d (last (x :: l)) = default x (last l).
Proof. rewrite last_cons. by destruct (last l). Qed.

Lemma trace_cons (event : StreamEvent) (pre : list StreamEvent) :
  topologies (event :: pre)
  = (if event is OnData (TopologyRow t _) _ then [t] else []) ++ topologies pre
  ∧ attributions (event :: pre)
    = (if event is OnData (TopologyRow _ a) _ then [a] else []) ++ attributions pre
  ∧ metadataObjects (event :: pre)
    = (if event is OnMetadata m then [m] else []) ++ metadataObjects pre
  ∧ rowClocks (event :: pre)
    = (if event is OnData _ clock then [clock] else []) ++ rowClocks pre
  ∧ rowCount (event :: pre)
    = ((if isRow event then 1 else 0) + rowCount pre)%nat.
Proof.
  unfold rowCount. rewrite filter_cons.
  by destruct event as [m|[|t a] clock| | | |].
Qed.

(** The closure variables after the callbacks [pre] have run. *)
Lemma consume_advance (c : Consumer) (pre rest : list StreamEvent) :
  Forall (λ event, isProgress event) pre →
  consume timestampsRecording timeout c (pre ++ rest)
  = consume timestampsRecording timeout
      {| cTrackedTopology := default (cTrackedTopology c) (last (topologies pre));
         cContributingDocuments := cContributingDocuments c ++ attributions pre;
         cCount := cCount c + rowCount pre;
         cTimestamps :=
           cTimestamps c ++ (if timestampsRecording then rowClocks pre else []);
         cMetadata := default (cMetadata c) (last (metadataObjects pre)) |}
      rest.
Proof.
  intros Hpre. revert c.
  induction Hpre as [|event pre Hevent _ IH]; intros c.
  - destruct c. simpl. rewrite !app_nil_r, Nat.add_0_r.
    by destruct timestampsRecording; rewrite ?app_nil_r.
  - destruct (trace_cons event pre) as (Ht & Ha & Hm & Hc & Hn).
    rewrite Ht, Ha, Hm, Hc, Hn. clear Ht Ha Hm Hc Hn.
    destruct event as [m|row clock| | | |]; try done.
    + cbn [app consume]. rewrite IH. f_equal.
      cbn [cTrackedTopology cContributingDocuments cCount cTimestamps cMetadata
           isRow app].
      by rewrite default_last_cons.
    + cbn [app consume]. rewrite IH. f_equal. unfold onData.
      destruct row as [|topology attribution];
        cbn [cTrackedTopology cContributingDocuments cCount cTimestamps cMetadata
             isRow app].
      * f_equal; [lia|]. destruct timestampsRecording; [|done].
        by rewrite <- app_assoc.
      * rewrite default_last_cons. f_equal.
        -- by rewrite <- app_assoc.
        -- lia.
        -- destruct timestampsRecording; [|done]. by rewrite <- app_assoc.
Qed.

(** X5: when the stream ends after the callbacks [pre] (rows and metadata
    events only), [executeQuery] resolves with the number of rows, the clock
    reading at the end, one timestamp per row in arrival order (none when
    timestamps are not recorded), the topology of the last row carrying one,
    the attributions of all such rows in order, and the last metadata object;
    so there are never more contributing-document groups than rows. *)
Theorem consume_end (pre post : list StreamEvent) (clock : Q) :
  Forall (λ event, isProgress event) pre →
  consume timestampsRecording timeout newConsumer (pre ++ OnEnd clock :: post)
  = Resolved
      {| outCount := rowCount pre;
         outTime := clock;
         outTimestamps := if timestampsRecording then rowClocks pre else [];
         outTrackedTopology := lastTopology pre;
         outContributingDocuments := attributions pre;
         outMetadata := lastMetadata pre |}
  ∧ (length (attributions pre) ≤ rowCount pre)%nat
  ∧ length (rowClocks pre) = rowCount pre.
Proof.
  intros Hpre. rewrite (consume_advance newConsumer pre _ Hpre).
  split; [reflexivity|]. clear Hpre.
  induction pre as [|event pre [IHa IHc]]; [done|].
  destruct (trace_cons event pre) as (_ & -> & _ & -> & ->).
  destruct event as [m|[|topology attribution] clock'| | | |]; simpl; split; lia.
Qed.

(** X6: when the stream fails after the callbacks [pre], [executeQuery]
    rejects with the stream's error, to which it has attached the rows
    counted so far, the clock reading at the failure, the timestamps and the
    last metadata object; no topology and no contributing documents are
    attached. *)
Theorem consume_error (pre post : list StreamEvent) (e : JsError) (clock : Q) :
  Forall (λ event, isProgress event) pre →
  consume timestampsRecording timeout newConsumer (pre ++ OnError e clock :: post)
  = Rejected
      {| message := message e;
         partialOutput :=
           Some {| partialCount := rowCount pre;
                   partialTime := clock;
                   partialTimestamps :=
                     if timestampsRecording then rowClocks pre else [];
                   partialMetadata := lastMetadata pre |} |}.
Proof.
  intros Hpre. by rewrite (consume_advance newConsumer pre _ Hpre).
Qed.

Lemma consume_idle (c : Consumer) (events : list StreamEvent) :
  timeoutConfigured timeout = false →
  Forall (λ event, isIdle event) events →
  consume timestampsRecording timeout c events = Pending.
Proof.
  intros Hoff Hidle. revert c.
  induction Hidle as [|event events Hevent _ IH]; intros c; [done|].
  destruct event; try done; simpl; rewrite ?Hoff; apply IH.
Qed.
End StreamFacts.

(** ** The loops of the execution engine *)

Section LoopFacts.
Import Metric Runner Trace.
Variable timestampsRecording : bool.
Variable timeout : option Q.
Variable metric : RunLinkTraversalPerformanceMetrics.
Variable respond : nat → string → list StreamEvent.

(** A property of the accumulator and the world that every turn of a loop
    establishes between its start and its end holds for the whole loop. *)
Lemma foldM_relation {A S} (body : S → A → Async S)
    (R : S → World → S → World → Prop) (xs : list A) :
  (∀ s w, R s w s w) →
  (∀ s1 w1 s2 w2 s3 w3, R s1 w1 s2 w2 → R s2 w2 s3 w3 → R s1 w1 s3 w3) →
  (∀ s x w s' w', x ∈ xs → body s x w = Returned s' w' → R s w s' w') →
  ∀ s w s' w', foldM body s xs w = Returned s' w' → R s w s' w'.
Proof.
  intros Hrefl Htrans. induction xs as [|x xs IH]; intros Hbody s w s' w'.
  - intros [= <- <-]. apply Hrefl.
  - cbn [foldM]. async_unfold.
    destruct (body s x w) as [s1 w1| |] eqn:Hx; [|done..].
    intros Hrest. apply Htrans with s1 w1.
    + eapply Hbody; [apply elem_of_cons; by left | done].
    + apply IH; [|done]. intros ? y ? ? ? Hy. apply Hbody, elem_of_cons. by right.
Qed.

(** The turns of a loop that returned have all returned. *)
Lemma foldM_requests {A S} (body : S → A → Async S) (cost : A → nat) (xs : list A) :
  (∀ s x w s' w', body s x w = Returned s' w' →
                  requests w' = (requests w + cost x)%nat) →
  ∀ s w s' w', foldM body s xs w = Returned s' w' →
               requests w' = (requests w + sum_list (cost <$> xs))%nat.
Proof.
  intros Hbody. induction xs as [|x xs IH]; intros s w s' w'.
  - intros [= <- <-]. simpl. lia.
  - cbn [foldM]. async_unfold.
    destruct (body s x w) as [s1 w1| |] eqn:Hx; [|done..].
    intros Hrest. rewrite (IH _ _ _ _ Hrest), (Hbody _ _ _ _ _ Hx).
    rewrite fmap_cons. simpl. lia.
Qed.

Lemma executeOne_requests (data data' : gmap string IBenchmarkResult)
    (setName queryId query : string) (w w' : World) :
  executeOne timestampsRecording timeout metric respond data setName queryId query w
  = Returned data' w' →
  requests w' = S (requests w).
Proof.
  executeOne_unfold.
  destruct (consume _ _ _ _) as [output|e|]; [| |done].
  - destruct (calculateMetrics _ _ _) as [slots w1| |] eqn:Hm; [|done..].
    intros [= <- <-]. by rewrite (calculateMetrics_requests _ _ _ _ _ Hm).
  - destruct (calculateMetrics _ _ _) as [slots w1| |] eqn:Hm; [|done..].
    intros [= <- <-]. by rewrite (calculateMetrics_requests _ _ _ _ _ Hm).
Qed.

Lemma sum_list_const {A} (c : nat) (xs : list A) :
  sum_list ((λ _, c) <$> xs) = (length xs * c)%nat.
Proof. induction xs as [|x xs IH]; [done|]. rewrite fmap_cons. simpl. lia. Qed.

(** X8: when [executeQueries] returns, it has sent exactly one request per
    query of every query set in each iteration: the number of requests has
    grown by the iteration count times the total number of queries. *)
Theorem executeQueries_requests (querySets : list (string * list string))
    (data data' : gmap string IBenchmarkResult) (iterations : nat) (w w' : World) :
  executeQueries querySets timestampsRecording timeout metric respond data iterations w
  = Returned data' w' →
  requests w'
  = (requests w
     + iterations * sum_list ((λ set : string * list string, length set.2) <$> querySets))%nat.
Proof.
  intros Hrun. unfold executeQueries in Hrun.
  apply (foldM_requests _
           (λ _, sum_list ((λ set : string * list string, length set.2) <$> querySets)))
    in Hrun.
  - by rewrite Hrun, sum_list_const, length_seq.
  - intros s _ w1 s1 w1' Hsets.
    apply (foldM_requests _ (λ set : string * list string, length set.2)) in Hsets;
      [done|].
    intros s2 [setName test] w2 s2' w2' Hset. unfold executeSet in Hset.
    apply (foldM_requests _ (λ _, 1%nat)) in Hset.
    + rewrite Hset, sum_list_const, length_imap. simpl. lia.
    + intros s3 [i query] w3 s3' w3' Hone.
      apply executeOne_requests in Hone. lia.
Qed.

Lemma persists_refl (e : IBenchmarkResult) : persists e e.
Proof. by repeat split. Qed.

Lemma persists_trans (e1 e2 e3 : IBenchmarkResult) :
  persists e1 e2 → persists e2 e3 → persists e1 e3.
Proof.
  intros (Hn & Hi & Hc & Hs & Hm & Hl & He) (Hn' & Hi' & Hc' & Hs' & Hm' & Hl' & He').
  repeat split; try congruence. intros Herr. by apply He', He.
Qed.

(** Storing a measurement touches the key [name + id] only, and an existing
    record keeps what [persists] lists. *)
Lemma store_spec (data : gmap string IBenchmarkResult) (setName queryId : string)
    (m : Measurement) (slots : list Q) :
  is_Some (store data setName queryId m slots !! (setName +:+ queryId))
  ∧ (∀ key, key ≠ setName +:+ queryId →
       store data setName queryId m slots !! key = data !! key)
  ∧ (∀ key e, data !! key = Some e →
       ∃ e', store data setName queryId m slots !! key = Some e' ∧ persists e e').
Proof.
  unfold store.
  destruct (data !! (setName +:+ queryId)) as [dataEntry|] eqn:Hentry.
  - split; [by rewrite lookup_insert_eq|].
    split; [intros key Hkey; by rewrite lookup_insert_ne|].
    intros key e He. destruct (decide (key = setName +:+ queryId)) as [->|Hkey].
    + rewrite lookup_insert_eq. eexists. split; [done|]. simplify_eq.
      repeat split; simpl; try done.
      * apply combineTimestamps_length.
      * intros ->. by destruct (errorObject m).
    + rewrite lookup_insert_ne by done. exists e. split; [done|apply persists_refl].
  - split; [by rewrite lookup_insert_eq|].
    split; [intros key Hkey; by rewrite lookup_insert_ne|].
    intros key e He. destruct (decide (key = setName +:+ queryId)) as [->|Hkey].
    + congruence.
    + rewrite lookup_insert_ne by done. exists e. split; [done|apply persists_refl].
Qed.

Lemma elem_of_keysOf (querySets : list (string * list string)) (key : string) :
  key ∈ keysOf querySets
  ↔ ∃ setName test i, (setName, test) ∈ querySets ∧ (i < length test)%nat
                      ∧ key = setName +:+ pretty i.
Proof.
  unfold keysOf. rewrite list_elem_of_bind. split.
  - intros ([setName test] & Hkey & Hset). apply list_elem_of_fmap in Hkey as (i & -> & Hi).
    apply elem_of_seq in Hi. simpl in Hi.
    exists setName, test, i. split; [done|]. split; [lia|done].
  - intros (setName & test & i & Hset & Hi & ->). exists (setName, test).
    split; [|done]. apply list_elem_of_fmap. exists i. split; [done|].
    apply elem_of_seq. simpl. lia.
Qed.

Lemma extends_refl (querySets : list (string * list string))
    (data : gmap string IBenchmarkResult) :
  extends querySets data data.
Proof. split; [done|]. intros key e He. exists e. split; [done|apply persists_refl]. Qed.

Lemma extends_trans (querySets : list (string * list string))
    (d1 d2 d3 : gmap string IBenchmarkResult) :
  extends querySets d1 d2 → extends querySets d2 d3 → extends querySets d1 d3.
Proof.
  intros [Hf1 Hk1] [Hf2 Hk2]. split.
  - intros key Hkey. by rewrite Hf2, Hf1.
  - intros key e He. destruct (Hk1 key e He) as (e1 & He1 & Hp1).
    destruct (Hk2 key e1 He1) as (e2 & He2 & Hp2).
    exists e2. split; [done|]. by eapply persists_trans.
Qed.

Lemma extends_is_Some (querySets : list (string * list string))
    (d1 d2 : gmap string IBenchmarkResult) (key : string) :
  extends querySets d1 d2 → is_Some (d1 !! key) → is_Some (d2 !! key).
Proof. intros [_ Hk] [e He]. destruct (Hk key e He) as (e' & -> & _). by eexists. Qed.

(** Every element a loop has passed is covered by what its turn made, as
    long as later turns keep it. *)
Lemma foldM_cover {A S} (body : S → A → Async S) (R : S → S → Prop)
    (made : A → S → Prop) (xs : list A) :
  (∀ s, R s s) →
  (∀ s1 s2 s3, R s1 s2 → R s2 s3 → R s1 s3) →
  (∀ x s s', R s s' → made x s → made x s') →
  (∀ s x w s' w', x ∈ xs → body s x w = Returned s' w' → R s s' ∧ made x s') →
  ∀ s w s' w', foldM body s xs w = Returned s' w' →
               R s s' ∧ ∀ x, x ∈ xs → made x s'.
Proof.
  intros Hrefl Htrans Hkeep. induction xs as [|x xs IH]; intros Hbody s w s' w'.
  - intros [= <- <-]. split; [done|]. by intros x ?%elem_of_nil.
  - cbn [foldM]. async_unfold.
    destruct (body s x w) as [s1 w1| |] eqn:Hx; [|done..].
    intros Hrest.
    destruct (Hbody s x w s1 w1) as [HR Hmade]; [apply elem_of_cons; by left|done|].
    destruct (IH (λ s0 y w0 s0' w0' Hy, Hbody s0 y w0 s0' w0'
                    (proj2 (elem_of_cons xs y x) (or_intror Hy))) s1 w1 s' w' Hrest)
      as [HR' Hall].
    split; [by eapply Htrans|].
    intros y Hy. apply elem_of_cons in Hy as [->|Hy]; [by eapply Hkeep|by apply Hall].
Qed.

Lemma executeOne_extends (querySets : list (string * list string))
    (setName : string) (test : list string) (i : nat)
    (data data' : gmap string IBenchmarkResult) (query : string) (w w' : World) :
  (setName, test) ∈ querySets → (i < length test)%nat →
  executeOne timestampsRecording timeout metric respond data setName (pretty i) query w
  = Returned data' w' →
  extends querySets data data' ∧ is_Some (data' !! (setName +:+ pretty i)).
Proof.
  intros Hset Hi Hone.
  destruct (executeOne_returned _ _ _ _ _ _ _ _ _ _ _ Hone) as (m & slots & _ & ->).
  destruct (store_spec data setName (pretty i) m slots) as (Hmade & Hframe & Hkeep).
  split; [|done]. split; [|done].
  intros key Hkey. apply Hframe. intros ->. apply Hkey, elem_of_keysOf.
  by exists setName, test, i.
Qed.

(** What one pass over the queries of a set does to the map. *)
Lemma executeSet_extends (querySets : list (string * list string))
    (setName : string) (test : list string)
    (data data' : gmap string IBenchmarkResult) (w w' : World) :
  (setName, test) ∈ querySets →
  executeSet timestampsRecording timeout metric respond data (setName, test) w
  = Returned data' w' →
  extends querySets data data'
  ∧ ∀ i, (i < length test)%nat → is_Some (data' !! (setName +:+ pretty i)).
Proof.
  intros Hset Hrun. unfold executeSet in Hrun. cbn [fst snd] in Hrun.
  apply (foldM_cover _ (extends querySets)
           (λ (x : nat * string) s, is_Some (s !! (setName +:+ pretty x.1))))
    in Hrun as [Hext Hall].
  - split; [done|]. intros i Hi.
    destruct (lookup_lt_is_Some_2 test i Hi) as [query Hq].
    apply (Hall (i, query)), elem_of_lookup_imap. by exists i, query.
  - apply extends_refl.
  - apply extends_trans.
  - intros x s s' Hext. by apply (extends_is_Some querySets).
  - intros s [i query] w1 s' w1' Hx Hone.
    apply elem_of_lookup_imap in Hx as (i' & query' & [= <- <-] & Hi).
    apply (executeOne_extends querySets setName test i s s' query w1 w1'); [done| |done].
    by eapply lookup_lt_Some.
Qed.

(** What one iteration does to the map. *)
Lemma executeSets_extends (querySets : list (string * list string))
    (data data' : gmap string IBenchmarkResult) (w w' : World) :
  foldM (executeSet timestampsRecording timeout metric respond) data querySets w
  = Returned data' w' →
  extends querySets data data'
  ∧ ∀ key, key ∈ keysOf querySets → is_Some (data' !! key).
Proof.
  intros Hrun.
  apply (foldM_cover _ (extends querySets)
           (λ (set : string * list string) s,
              ∀ i, (i < length set.2)%nat → is_Some (s !! (set.1 +:+ pretty i))))
    in Hrun as [Hext Hall].
  - split; [done|]. intros key Hkey.
    apply elem_of_keysOf in Hkey as (setName & test & i & Hset & Hi & ->).
    by apply (Hall (setName, test)).
  - apply extends_refl.
  - apply extends_trans.
  - intros set s s' Hext Hmade i Hi. by apply (extends_is_Some querySets s), Hmade.
  - intros s [setName test] w1 s' w1' Hset Hone.
    by apply (executeSet_extends querySets setName test s s' w1 w1').
Qed.

(** What all iterations do to the map. *)
Lemma executeQueries_extends (querySets : list (string * list string))
    (data data' : gmap string IBenchmarkResult) (iterations : nat) (w w' : World) :
  executeQueries querySets timestampsRecording timeout metric respond data iterations w
  = Returned data' w' →
  extends querySets data data'
  ∧ ((0 < iterations)%nat → ∀ key, key ∈ keysOf querySets → is_Some (data' !! key)).
Proof.
  intros Hrun. unfold executeQueries in Hrun.
  apply (foldM_cover _ (extends querySets)
           (λ (_ : nat) s, ∀ key, key ∈ keysOf querySets → is_Some (s !! key)))
    in Hrun as [Hext Hall].
  - split; [done|]. intros Hpos. apply (Hall 0%nat), elem_of_seq. lia.
  - apply extends_refl.
  - apply extends_trans.
  - intros _ s s' Hext Hmade key Hkey. by apply (extends_is_Some querySets s), Hmade.
  - intros s iteration w1 s' w1' _ Hone. by apply executeSets_extends in Hone.
Qed.

(** X9: when [executeQueries] has run at least one iteration and returns,
    the map holds a record under [name + id] for every query of every query
    set, and every other key of the map is left as it was. *)
Theorem executeQueries_keys (querySets : list (string * list string))
    (data data' : gmap string IBenchmarkResult) (iterations : nat) (w w' : World) :
  (0 < iterations)%nat →
  executeQueries querySets timestampsRecording timeout metric respond data iterations w
  = Returned data' w' →
  (∀ setName test i, (setName, test) ∈ querySets → (i < length test)%nat →
     is_Some (data' !! (setName +:+ pretty i)))
  ∧ (∀ key,
       (∀ setName test i, (setName, test) ∈ querySets → (i < length test)%nat →
          key ≠ setName +:+ pretty i) →
       data' !! key = data !! key).
Proof.
  intros Hpos Hrun.
  destruct (executeQueries_extends _ _ _ _ _ _ Hrun) as [[Hframe _] Hall]. split.
  - intros setName test i Hset Hi. apply Hall; [done|].
    apply elem_of_keysOf. by exists setName, test, i.
  - intros key Hkey. apply Hframe. intros Hin.
    apply elem_of_keysOf in Hin as (setName & test & i & Hset & Hi & ->).
    by apply (Hkey setName test i).
Qed.

(** X10: a record that exists when [executeQueries] starts is still there
    when it returns, with the name, id, count, metric slots and metadata it
    had and with as many timestamps; an error flag that was set is still
    set. Later iterations therefore never update the count or the metrics
    of the first execution. *)
Theorem executeQueries_persists (querySets : list (string * list string))
    (data data' : gmap string IBenchmarkResult) (iterations : nat) (w w' : World)
    (key : string) (e : IBenchmarkResult) :
  executeQueries querySets timestampsRecording timeout metric respond data iterations w
  = Returned data' w' →
  data !! key = Some e →
  ∃ e', data' !! key = Some e'
        ∧ name e' = name e ∧ id e' = id e ∧ count e' = count e
        ∧ metricsCalculated e' = metricsCalculated e
        ∧ metadata e' = metadata e
        ∧ length (timestamps e') = length (timestamps e)
        ∧ (error e = true → error e' = true).
Proof.
  intros Hrun He.
  destruct (executeQueries_extends _ _ _ _ _ _ Hrun) as [[_ Hkeep] _].
  destruct (Hkeep key e He) as (e' & He' & Hp). exists e'. split; [done|]. exact Hp.
Qed.

(** X4: whenever the metric step of [executeQueries] returns, it has filled
    exactly four slots and sent no request; it has called the evaluator at
    most four times, the all-results metric first; and for an execution
    without rows or without contributing documents it has not called the
    evaluator at all and the four slots are -1. *)
Theorem calculateMetrics_slots (m : Measurement) (w w' : World) (slots : list Q) :
  calculateMetrics metric m w = Returned slots w' →
  length slots = 4%nat
  ∧ requests w' = requests w
  ∧ ∃ calls,
      evaluatorLog w' = evaluatorLog w ++ calls
      ∧ (length calls ≤ 4)%nat
      ∧ (calls ≠ [] → head calls = Some CallMetricAll)
      ∧ (mCount m = 0%nat ∨ mContributingDocuments m = Some [] →
         slots = [-1; -1; -1; -1]%Q ∧ calls = []).
Proof.
  intros Hrun. split; [|split; [by eapply calculateMetrics_requests|]].
  - revert Hrun. unfold calculateMetrics, evaluate. async_unfold.
    repeat case_bool_decide; repeat case_match; try done; try by intros [= <- <-].
    simplify_eq/=. intros [= <- <-].
    match goal with
    | H : calculateMetricFirstKResults _ _ _ _ _ _ _ _ _ _ _ = _ |- _ =>
        unfold calculateMetricFirstKResults in H; rewrite firstKLoop_spec in H;
        injection H as <- _
    end.
    done.
  - revert Hrun. unfold calculateMetrics, evaluate. async_unfold.
    destruct w as [n log]. cbn [evaluatorLog].
    case_bool_decide as Hcount.
    + destruct (mContributingDocuments m) as [docs|]; [|done].
      case_bool_decide as Hdocs.
      * destruct (mTrackedTopology m) as [topology|]; [|done].
        unfold calculateMetricAllResults, calculateMetricAll, invoke,
          calculateMetricFirstKResults.
        rewrite firstKLoop_spec. intros [= <- <-].
        eexists (CallMetricAll :: _). cbn [evaluatorLog].
        split; [by rewrite <- app_assoc|]. split; [|split; [done|]].
        -- cbn [length]. rewrite length_map.
           pose proof (length_filter
                         (λ k, (k < Z.of_nat (length
                            (contributingNodes
                               (prepareMetricInput topology docs unweighted))))%Z)
                         [1; 2; 4]%Z) as Hle.
           simpl in Hle. simpl. lia.
        -- intros [Hzero|[= ->]]; [lia|]. simpl in Hdocs. lia.
      * intros [= <- <-]. exists []. rewrite app_nil_r. repeat split; done || (simpl; lia).
    + intros [= <- <-]. exists []. rewrite app_nil_r. repeat split; done || (simpl; lia).
Qed.

Lemma executeOne_idle (data : gmap string IBenchmarkResult)
    (setName queryId query : string) (w : World) :
  timeoutConfigured timeout = false →
  Forall (λ event, isIdle event) (respond (requests w) query) →
  executeOne timestampsRecording timeout metric respond data setName queryId query w
  = Blocked {| requests := S (requests w); evaluatorLog := evaluatorLog w |}.
Proof.
  intros Hoff Hidle. executeOne_unfold.
  by rewrite (consume_idle timestampsRecording timeout newConsumer _ Hoff Hidle).
Qed.

(** X7: without a timeout (none given, or 0), a query whose stream neither
    ends nor fails is never settled: [executeQueries] does not get past it,
    so it neither returns nor throws, and no later query is sent. *)
Theorem executeQueries_blocked (setName query : string) (queries : list string)
    (sets : list (string * list string)) (data : gmap string IBenchmarkResult)
    (iterations : nat) (w : World) :
  timeoutConfigured timeout = false →
  Forall (λ event, isIdle event) (respond (requests w) query) →
  executeQueries ((setName, query :: queries) :: sets) timestampsRecording timeout
    metric respond data (S iterations) w
  = Blocked {| requests := S (requests w); evaluatorLog := evaluatorLog w |}.
Proof.
  intros Hoff Hidle. unfold executeQueries. cbn [seq foldM]. async_unfold.
  unfold executeSet at 1. cbn [imap foldM fst snd]. async_unfold.
  by rewrite (executeOne_idle data setName _ query w Hoff Hidle).
Qed.

(** X11: every record [run] returns stems from an accumulated record, the
    replication count is then positive (the division is never by zero), the
    reported time is the integer [z] with
    [z * replication <= accumulated time < (z + 1) * replication], and the
    timestamps are as many integers as were accumulated. *)
Theorem run_integer_times (querySets : list (string * list string))
    (replication warmup : nat) (w w' : World)
    (results : gmap string IBenchmarkResult) (key : string) (r : IBenchmarkResult) :
  run querySets replication warmup timestampsRecording timeout metric respond w
  = Returned results w' →
  results !! key = Some r →
  (0 < replication)%nat
  ∧ ∃ discarded wm accumulated a z,
      executeQueries querySets timestampsRecording timeout metric respond ∅ warmup w
      = Returned discarded wm
      ∧ executeQueries querySets timestampsRecording timeout metric respond ∅
          replication wm
        = Returned accumulated w'
      ∧ accumulated !! key = Some a
      ∧ time r = inject_Z z
      ∧ (inject_Z z * inject_Z (Z.of_nat replication) <= time a)%Q
      ∧ (time a < (inject_Z z + 1) * inject_Z (Z.of_nat replication))%Q
      ∧ length (timestamps r) = length (timestamps a)
      ∧ Forall (λ t, ∃ z', t = inject_Z z') (timestamps r).
Proof.
  unfold run. async_unfold.
  destruct (executeQueries _ _ _ _ _ _ warmup w) as [discarded wm| |] eqn:Hwarm;
    [|done..].
  destruct (executeQueries _ _ _ _ _ _ replication wm) as [accumulated wr| |]
    eqn:Hrep; [|done..].
  intros [= <- <-]. rewrite lookup_fmap.
  destruct (accumulated !! key) as [a|] eqn:Ha; [|done]. intros [= <-].
  assert (Hpos : (0 < replication)%nat).
  { destruct replication; [|lia]. rewrite executeQueries_zero in Hrep.
    injection Hrep as <- _. by rewrite lookup_empty in Ha. }
  split; [done|].
  destruct (floorDiv_bounds (time a) replication Hpos) as (Hz & Hlow & Hhigh).
  exists discarded, wm, accumulated, a,
    (Qfloor (time a / inject_Z (Z.of_nat replication))).
  repeat split; try done.
  - cbn [average timestamps]. apply length_map.
  - cbn [average timestamps]. apply Forall_forall. intros t Ht.
    apply list_elem_of_fmap in Ht as (t0 & -> & _). by eexists.
Qed.
End LoopFacts.

Lemma consume_end_witness :
  Runner.consume true None Runner.newConsumer (Cases.rows ++ [Runner.OnEnd 9])
  = Runner.Resolved
      {| Runner.outCount := 2; Runner.outTime := 9;
         Runner.outTimestamps := [3; 7]%Q;
         Runner.outTrackedTopology := Cases.topology;
         Runner.outContributingDocuments := [["a"]];
         Runner.outMetadata := [("httpRequests", "2")] |}.
Proof.
  refine (proj1 (consume_end true None Cases.rows [] 9 _)).
  repeat constructor.
Defined.

Lemma consume_error_witness :
  Runner.consume true None Runner.newConsumer
    (Cases.rows ++ [Runner.OnError Sample.boom 9])
  = Runner.Rejected
      {| Runner.message := "socket hang up";
         Runner.partialOutput :=
           Some {| Runner.partialCount := 2; Runner.partialTime := 9;
                   Runner.partialTimestamps := [3; 7]%Q;
                   Runner.partialMetadata := [("httpRequests", "2")] |} |}.
Proof.
  refine (consume_error true None Cases.rows [] Sample.boom 9 _).
  repeat constructor.
Defined.

Lemma executeQueries_requests_witness :
  ∃ data' w',
    Runner.executeQueries Cases.oneQuery true None Sample.metric Sample.respondTimes
      ∅ 2 Sample.world
    = Runner.Returned data' w'
    ∧ Runner.requests w' = 2%nat.
Proof.
  eexists _, _. split; [reflexivity|].
  exact (executeQueries_requests true None Sample.metric Sample.respondTimes
           Cases.oneQuery ∅ _ 2 Sample.world _ eq_refl).
Defined.

Lemma executeQueries_keys_witness :
  ∃ data' w',
    Runner.executeQueries Cases.oneQuery true None Sample.metric Sample.respondTimes
      ∅ 2 Sample.world
    = Runner.Returned data' w'
    ∧ is_Some (data' !! "q0").
Proof.
  eexists _, _. split; [reflexivity|].
  refine (proj1 (executeQueries_keys true None Sample.metric Sample.respondTimes
                   Cases.oneQuery ∅ _ 2 Sample.world _ _ eq_refl)
            "q" ["SELECT * WHERE { ?s ?p ?o }"] 0%nat _ _).
  - lia.
  - apply elem_of_cons. by left.
  - simpl. lia.
Defined.

Lemma executeQueries_persists_witness :
  ∃ data' w' e',
    Runner.executeQueries Cases.oneQuery true None Sample.metric Sample.respondOneRow
      Sample.recorded 1 Sample.world
    = Runner.Returned data' w'
    ∧ data' !! "q0" = Some e'
    ∧ Runner.count e' = 2%nat.
Proof.
  eexists _, _.
  assert (Hrun : Runner.executeQueries Cases.oneQuery true None Sample.metric
                   Sample.respondOneRow Sample.recorded 1 Sample.world
                 = Runner.Returned (<["q0" := Sample.mergedRecord]> Sample.recorded)
                     (Sample.sent 1)) by reflexivity.
  destruct (executeQueries_persists true None Sample.metric Sample.respondOneRow
              Cases.oneQuery Sample.recorded _ 1 Sample.world _ "q0"
              Sample.firstRecord Hrun eq_refl)
    as (e' & He' & _ & _ & Hcount & _).
  exists e'. split; [exact Hrun|]. split; [exact He'|exact Hcount].
Defined.

Lemma calculateMetrics_slots_witness :
  Runner.calculateMetrics Sample.metric Cases.noDocuments Sample.world
  = Runner.Returned [-1; -1; -1; -1]%Q Sample.world
  ∧ length [-1; -1; -1; -1]%Q = 4%nat.
Proof.
  split; [reflexivity|].
  exact (proj1 (calculateMetrics_slots Sample.metric Cases.noDocuments Sample.world
                  Sample.world [-1; -1; -1; -1]%Q eq_refl)).
Defined.

Lemma executeQueries_blocked_witness :
  Runner.executeQueries Cases.oneQuery true (Some 0%Q) Sample.metric
    Cases.respondSilent ∅ 1 Sample.world
  = Runner.Blocked (Sample.sent 1).
Proof.
  refine (executeQueries_blocked true (Some 0%Q) Sample.metric Cases.respondSilent
            "q" "SELECT * WHERE { ?s ?p ?o }" [] [] ∅ 0 Sample.world eq_refl _).
  repeat constructor.
Defined.

Lemma run_integer_times_witness :
  ∃ results w' r,
    Runner.run Cases.oneQuery 2 0 true None Sample.metric Sample.respondTimes
      Sample.world
    = Runner.Returned results w'
    ∧ results !! "q0" = Some r
    ∧ (0 < 2)%nat.
Proof.
  eexists _, _, _. split; [reflexivity|]. split; [reflexivity|].
  refine (proj1 (run_integer_times true None Sample.metric Sample.respondTimes
                   Cases.oneQuery 2 0 Sample.world _ _ "q0" _ eq_refl eq_refl)).
Defined.

(** ** Liveness of the endpoint *)

Section LivenessFacts.
Import Runner Liveness.

(** X12: a probe reports the endpoint up exactly when its stream ends
    before an error, the 10 s timer or a rejected fetch; rows and metadata
    before the end do not matter. The probe is settled (never left pending)
    as soon as the timer callback is among the events. *)
Theorem isUp_true_iff (events : list StreamEvent) :
  (isUp events = Some true
   ↔ ∃ pre clock post, events = pre ++ OnEnd clock :: post
                       ∧ Forall (λ event, isProgress event) pre)
  ∧ (OnTimeout ∈ events → is_Some (isUp events)).
Proof.
  split; [split|].
  - induction events as [|event events IH]; [done|].
    destruct event as [m|row clock|e clock|clock| |e]; simpl; try done.
    + intros Hup. destruct (IH Hup) as (pre & clock & post & -> & Hpre).
      exists (OnMetadata m :: pre), clock, post. split; [done|]. by constructor.
    + intros Hup. destruct (IH Hup) as (pre & clock' & post & -> & Hpre).
      exists (OnData row clock :: pre), clock', post. split; [done|]. by constructor.
    + intros _. by exists [], clock, events.
  - intros (pre & clock & post & -> & Hpre).
    induction Hpre as [|event pre Hevent _ IH]; [done|].
    by destruct event.
  - induction events as [|event events IH]; [by intros ?%elem_of_nil|].
    intros Hin. apply elem_of_cons in Hin as [<-|Hin]; [by eexists|].
    destruct event; simpl; eauto.
Qed.

Lemma waitUntilUp_from (probes : nat → list StreamEvent) (n fuel counter : nat) :
  (∀ i, (counter ≤ i < n)%nat → isUp (probes i) = Some false) →
  isUp (probes n) = Some true →
  (counter ≤ n)%nat → (n - counter < fuel)%nat →
  waitUntilUp probes fuel counter = Some n.
Proof.
  revert counter. induction fuel as [|fuel IH]; intros counter Hdown Hup Hle Hfuel;
    [lia|].
  simpl. destruct (decide (counter = n)) as [->|Hne]; [by rewrite Hup|].
  rewrite Hdown by lia. apply IH; [|done|lia..].
  intros i Hi. apply Hdown. lia.
Qed.

(** X13: [waitUntilUp] returns after exactly as many one-second waits as
    there were failed probes: if the probes before the n-th report the
    endpoint down and the n-th reports it up, the loop ends with counter n
    (given room for n+1 probes); if every probe reports it down, the loop
    has not returned after any number of probes. *)
Theorem waitUntilUp_first_success (probes : nat → list StreamEvent) :
  (∀ n, (∀ i, (i < n)%nat → isUp (probes i) = Some false) →
        isUp (probes n) = Some true →
        ∀ fuel, (n < fuel)%nat → waitUntilUp probes fuel 0 = Some n)
  ∧ ((∀ i, isUp (probes i) = Some false) →
     ∀ fuel, waitUntilUp probes fuel 0 = None).
Proof.
  split.
  - intros n Hdown Hup fuel Hfuel.
    apply (waitUntilUp_from probes n); [|done|lia..].
    intros i Hi. apply Hdown. lia.
  - intros Hdown fuel. generalize 0%nat.
    induction fuel as [|fuel IH]; intros counter; [done|].
    simpl. rewrite Hdown. apply IH.
Qed.
End LivenessFacts.

Lemma waitUntilUp_first_success_witness :
  Liveness.waitUntilUp Cases.probes 5 0 = Some 2%nat.
Proof.
  refine (proj1 (waitUntilUp_first_success Cases.probes) 2%nat _ eq_refl 5%nat _).
  - intros [|[|i]] Hi; [reflexivity | reflexivity | lia].
  - lia.
Defined.

(** ** Grouping in the aggregator *)

Section GroupingFacts.
Import Aggregator.

Lemma groupAggregateStep_abrupt (entries : list (nat * IAggregateResult))
    (message : string) :
  foldl groupAggregateStep (Abrupt message) entries = Abrupt message.
Proof. induction entries as [|entry entries IH]; [done|]. exact IH. Qed.

Lemma groupAggregate_fold (entries : list (nat * IAggregateResult))
    (groups : gmap string (list nat)) :
  Forall (λ entry, Prototype.isInherited (aggregateName entry.2) = false) entries →
  ∃ groups',
    foldl groupAggregateStep (Normal groups) entries = Normal groups'
    ∧ ∀ key,
        groups' !! key
        = match (filter (λ entry, aggregateName entry.2 = key) entries).*1 with
          | [] => groups !! key
          | indices => Some (default [] (groups !! key) ++ indices)
          end.
Proof.
  intros Hnames. revert groups.
  induction Hnames as [|[i a] entries Hname _ IH]; intros groups.
  - by exists groups.
  - cbn [foldl]. cbn [snd] in Hname.
    assert (Hstep : ∃ next,
              groupAggregateStep (Normal groups) (i, a) = Normal next
              ∧ ∀ key, next !! key
                       = if decide (aggregateName a = key)
                         then Some (default [] (groups !! key) ++ [i])
                         else groups !! key).
    { unfold groupAggregateStep, Prototype.has. cbn [fst snd]. rewrite Hname.
      destruct (groups !! aggregateName a) as [group|] eqn:Hgroup.
      - rewrite bool_decide_eq_true_2 by done. cbn [orb].
        eexists. split; [reflexivity|]. intros key.
        destruct (decide (aggregateName a = key)) as [<-|Hne].
        + by rewrite lookup_insert_eq, Hgroup.
        + by rewrite lookup_insert_ne.
      - rewrite bool_decide_eq_false_2 by (by intros [? ?]). cbn [orb].
        eexists. split; [reflexivity|]. intros key.
        destruct (decide (aggregateName a = key)) as [<-|Hne].
        + by rewrite lookup_insert_eq, Hgroup.
        + by rewrite lookup_insert_ne. }
    destruct Hstep as (next & -> & Hnext).
    destruct (IH next) as (groups' & -> & Hgroups').
    exists groups'. split; [done|]. intros key.
    rewrite Hgroups', Hnext, filter_cons. cbn [snd].
    destruct (decide (aggregateName a = key)) as [<-|Hne]; [|done].
    rewrite fmap_cons. cbn [fst default].
    destruct ((filter _ entries).*1); simpl; [done|]. by rewrite <- app_assoc.
Qed.

(** No group is created under an inherited name, so the first aggregate
    with such a name makes the call throw. *)
Lemma groupAggregate_fold_inherited (entries : list (nat * IAggregateResult))
    (groups : gmap string (list nat)) :
  (∀ key, Prototype.isInherited key = true → groups !! key = None) →
  Exists (λ entry, Prototype.isInherited (aggregateName entry.2) = true) entries →
  foldl groupAggregateStep (Normal groups) entries
  = Abrupt (Prototype.notAFunction "groups[key].push").
Proof.
  intros Hnone Hsome. revert groups Hnone.
  induction entries as [|[i a] entries IH]; intros groups Hnone.
  - by apply Exists_nil in Hsome.
  - cbn [foldl]. unfold groupAggregateStep at 2, Prototype.has. cbn [fst snd].
    destruct (Prototype.isInherited (aggregateName a)) eqn:Hname.
    + rewrite orb_true_r, (Hnone _ Hname). apply groupAggregateStep_abrupt.
    + apply Exists_cons in Hsome as [Hhere|Hsome]; [cbn [snd] in Hhere; congruence|].
      rewrite orb_false_r.
      destruct (groups !! aggregateName a) as [group|] eqn:Hgroup.
      * rewrite bool_decide_eq_true_2 by done. apply IH; [done|].
        intros key Hkey. rewrite lookup_insert_ne by congruence. by apply Hnone.
      * rewrite bool_decide_eq_false_2 by (by intros [? ?]). apply IH; [done|].
        intros key Hkey. rewrite lookup_insert_ne by congruence. by apply Hnone.
Qed.

Lemma imap_pair_names (results : list IAggregateResult) (P : string → Prop) (n : nat) :
  Forall (λ a, P (aggregateName a)) results ↔
  Forall (λ entry : nat * IAggregateResult, P (aggregateName entry.2))
         (imap (λ i, pair (n + i)%nat) results).
Proof.
  revert n. induction results as [|a results IH]; intros n; cbn [imap].
  - split; constructor.
  - rewrite !Forall_cons. cbn [snd].
    rewrite (IH (S n)).
    assert (Heq : imap ((λ i, pair (n + i)%nat) ∘ S) results
                  = imap (λ i, pair (S n + i)%nat) results).
    { apply imap_ext. intros i x _. simpl. f_equal. lia. }
    by rewrite Heq.
Qed.

(** X14: [groupAggregateResults] puts every aggregate into the group of its
    name and into no other: the group of a name holds the positions of the
    aggregates with that name, in order, and a name no aggregate has gets no
    group. The first entry of a group, which is the aggregate the
    statistics are written to, is the first aggregate with that name. This
    holds when no aggregate is named like a property inherited from
    [Object.prototype]; when one is, the call throws a [TypeError]. *)
Theorem groupAggregateResults_spec (results : list IAggregateResult) :
  (Forall (λ a, Prototype.isInherited (aggregateName a) = false) results →
   ∃ groups,
     groupAggregateResults results = Normal groups
     ∧ ∀ key,
         groups !! key
         = match (filter (λ entry, aggregateName entry.2 = key)
                         (imap pair results)).*1 with
           | [] => None
           | indices => Some indices
           end)
  ∧ (Exists (λ a, Prototype.isInherited (aggregateName a) = true) results →
     groupAggregateResults results
     = Abrupt (Prototype.notAFunction "groups[key].push")).
Proof.
  unfold groupAggregateResults. split.
  - intros Hnames.
    destruct (groupAggregate_fold (imap pair results) ∅) as (groups & -> & Hgroups).
    { by apply (imap_pair_names results (λ k, Prototype.isInherited k = false) 0). }
    exists groups. split; [done|]. intros key.
    rewrite Hgroups, lookup_empty. by destruct ((filter _ (imap pair results)).*1).
  - intros Hsome. apply groupAggregate_fold_inherited; [done|].
    apply Exists_exists in Hsome as (a & Ha & Hname).
    apply list_elem_of_lookup_1 in Ha as [i Hi].
    apply Exists_exists. exists (i, a). split; [|done].
    apply elem_of_lookup_imap. by exists i, a.
Qed.

(** X15: grouping a second time the records that were already grouped (the
    same objects, distinct, none with a template named like an inherited
    property) yields the same groups but destroys the step names: the first
    call moved each name into [sequence] and put the template into [name],
    so the second call overwrites [sequence] with the template. *)
Theorem groupResults_twice (heap : gmap nat IResult) (results : list nat) :
  NoDup results →
  (∀ l, l ∈ results → is_Some (heap !! l)) →
  (∀ l r, l ∈ results → heap !! l = Some r →
          Prototype.isInherited (template r) = false) →
  let once := groupResults heap results in
  let twice := groupResults once.1 results in
  (∃ groups, once.2 = Normal groups ∧ twice.2 = Normal groups)
  ∧ ∀ l r, l ∈ results → heap !! l = Some r →
      ∃ r1 r2, once.1 !! l = Some r1 ∧ twice.1 !! l = Some r2
               ∧ sequence r1 = Some (name r)
               ∧ sequence r2 = Some (template r)
               ∧ name r2 = template r.
Proof.
  intros Hnodup Hdefined Hown once twice.
  destruct (groupStep_fold results heap ∅ Hnodup Hdefined Hown)
    as (groups & Hg & Hgroups & Hheap).
  fold (groupResults heap results) in Hg, Hheap. fold once in Hg, Hheap.
  assert (Hdefined' : ∀ l, l ∈ results → is_Some (once.1 !! l)).
  { intros l Hl. rewrite Hheap, decide_True by done.
    destruct (Hdefined l Hl) as [r ->]. by eexists. }
  assert (Hown' : ∀ l r, l ∈ results → once.1 !! l = Some r →
                         Prototype.isInherited (template r) = false).
  { intros l r Hl. rewrite Hheap, decide_True by done.
    destruct (heap !! l) as [r0|] eqn:Hr0; [|done].
    intros [= <-]. simpl. by eapply Hown. }
  destruct (groupStep_fold results once.1 ∅ Hnodup Hdefined' Hown')
    as (groups' & Hg' & Hgroups' & Hheap').
  fold (groupResults once.1 results) in Hg', Hheap'. fold twice in Hg', Hheap'.
  split.
  - exists groups. split; [done|]. rewrite Hg'. f_equal.
    apply map_eq. intros t. rewrite Hgroups, Hgroups'.
    rewrite (list_filter_iff _ (λ l, hasTemplate heap t l)); [done|].
    intros l. unfold hasTemplate. rewrite Hheap.
    case_decide; [|done]. by destruct (heap !! l).
  - intros l r Hl Hr. exists (relabel r), (relabel (relabel r)).
    rewrite Hheap', Hheap, !decide_True, Hr by done. done.
Qed.
End GroupingFacts.

Lemma groupResults_twice_witness :
  ∃ groups,
    (Aggregator.groupResults Sample.steps [1; 2]%nat).2 = Normal groups
    ∧ (Aggregator.groupResults (Aggregator.groupResults Sample.steps [1; 2]%nat).1
         [1; 2]%nat).2
      = Normal groups.
Proof.
  refine (proj1 (groupResults_twice Sample.steps [1; 2]%nat _ _ _)).
  - repeat constructor; rewrite ?elem_of_cons, ?elem_of_nil; lia.
  - intros l. rewrite !elem_of_cons, elem_of_nil.
    intros [->|[->|[]]]; eexists; reflexivity.
  - intros l r. rewrite !elem_of_cons, elem_of_nil.
    intros [->|[->|[]]]; by intros [= <-].
Defined.

(** ** The httpRequests statistics *)

Section StatisticsFiltered.
Import Aggregator.
Context {arithmetic : Arithmetic}.

Lemma squaredDeviations_filter (mean : jsnumber) (group : list IResult) :
  squaredDeviations mean (filter (λ r, negb (error r)) group)
  = squaredDeviations mean group.
Proof.
  unfold squaredDeviations. generalize (Finite 0).
  induction group as [|r group IH]; intros std; [done|].
  cbn [foldl]. destruct (error r) eqn:Herror.
  - rewrite filter_cons_False by (rewrite Herror; simpl; tauto). apply IH.
  - rewrite filter_cons_True by (rewrite Herror; simpl; tauto).
    cbn [foldl]. rewrite Herror. apply IH.
Qed.

(** X16: the members of a group that carry an error flag never influence
    the four statistics, whatever their [httpRequests] field holds: the
    statistics of a group are those of its error-free members. *)
Theorem httpRequestsStatistics_ignores_errors (group : list IResult) :
  httpRequestsStatistics group
  = httpRequestsStatistics (filter (λ r, negb (error r)) group).
Proof.
  unfold httpRequestsStatistics.
  assert (Htally : tally (filter (λ r, negb (error r)) group) = tally group).
  { unfold tally. rewrite list_filter_filter. f_equal.
    apply list_filter_iff. intros r. destruct (error r), (typeofNumber (httpRequests r));
      simpl; tauto. }
  rewrite Htally. case_bool_decide; [|done].
  by rewrite squaredDeviations_filter.
Qed.

Lemma httpRequestsStatistics_all_failed (group : list IResult) :
  Forall (λ r, error r = true) group → httpRequestsStatistics group = None.
Proof.
  intros Hall. unfold httpRequestsStatistics, tally.
  replace (filter _ group) with (@nil IResult); [done|].
  symmetry. induction Hall as [|r group Hr _ IH]; [done|].
  rewrite filter_cons_False by (rewrite Hr; simpl; tauto). done.
Qed.
End StatisticsFiltered.

Section StatisticsMore.
Import Aggregator.
(** The statements of this section are about the arithmetic of the reals. *)
#[local] Existing Instance exact.
Local Open Scope R_scope.

Lemma sumR_bounds (a b : R) (xs : list R) :
  (∀ y, y ∈ xs → a <= y <= b) →
  INR (length xs) * a <= sumR xs <= INR (length xs) * b.
Proof.
  unfold sumR. induction xs as [|x xs IH]; intros Hxs.
  - simpl. lra.
  - cbn [foldr length]. rewrite S_INR.
    destruct IH as [IHa IHb]; [intros y Hy; apply Hxs, elem_of_cons; by right|].
    destruct (Hxs x) as [Hxa Hxb]; [apply elem_of_cons; by left|]. lra.
Qed.

(** X17: for a group whose error-free members carry numbers, the
    statistics are ordered and taken from the data: the minimum and the
    maximum are values of error-free members, the mean lies between them,
    and the standard deviation is not negative. *)
Theorem httpRequestsStatistics_bounds (group : list IResult) (xs : list R)
    (s : HttpRequestsStatistics) :
  map httpRequests (filter (λ r, negb (error r)) group) = map JNumber xs →
  httpRequestsStatistics group = Some s →
  ∃ mean mx mn sd,
    s = {| statMean := Finite mean; statMax := Finite mx; statMin := Finite mn;
           statStd := Finite sd |}
    ∧ mn ∈ xs ∧ mx ∈ xs
    ∧ mn <= mean <= mx
    ∧ 0 <= sd.
Proof.
  intros Hxs. rewrite (httpRequestsStatistics_numeric group xs Hxs).
  destruct xs as [|x rest]; [done|]. cbv zeta.
  set (n := INR (length (x :: rest))).
  set (mean := sumR (x :: rest) / n).
  intros Hs. injection Hs as <-.
  exists mean, (foldl Rmax x rest), (foldl Rmin x rest),
    (sqrt (sumR (map (λ h, (h - mean) ^ 2) (x :: rest)) / n)).
  split; [reflexivity|].
  destruct (foldl_Rmax_greatest x rest) as [Hmaxin Hmax].
  destruct (foldl_Rmin_least x rest) as [Hminin Hmin].
  split; [done|]. split; [done|]. split; [|apply sqrt_pos].
  assert (Hn : 0 < n) by (apply lt_0_INR; simpl; lia).
  destruct (sumR_bounds (foldl Rmin x rest) (foldl Rmax x rest) (x :: rest))
    as [Hlow Hhigh]; [by intros y Hy; split; [apply Hmin|apply Hmax]|].
  fold n in Hlow, Hhigh.
  assert (Hmean : n * mean = sumR (x :: rest)) by (unfold mean; field; lra).
  split; apply (Rmult_le_reg_l n); (done || lra).
Qed.

End StatisticsMore.

Lemma httpRequestsStatistics_bounds_witness :
  ∃ mean mx mn sd,
    Some {| Aggregator.statMean := Aggregator.Finite 15;
            Aggregator.statMax := Aggregator.Finite 20;
            Aggregator.statMin := Aggregator.Finite 10;
            Aggregator.statStd := Aggregator.Finite 5 |}
    = Some {| Aggregator.statMean := Aggregator.Finite mean;
              Aggregator.statMax := Aggregator.Finite mx;
              Aggregator.statMin := Aggregator.Finite mn;
              Aggregator.statStd := Aggregator.Finite sd |}
    ∧ (mn <= mean <= mx)%R.
Proof.
  destruct (httpRequestsStatistics_bounds Sample.tenTwentyFailed [10; 20]%R
              {| Aggregator.statMean := Aggregator.Finite 15;
                 Aggregator.statMax := Aggregator.Finite 20;
                 Aggregator.statMin := Aggregator.Finite 10;
                 Aggregator.statStd := Aggregator.Finite 5 |} eq_refl)
    as (mean & mx & mn & sd & Hs & _ & _ & Horder & _).
  - apply httpRequestsStatistics_ten_twenty. reflexivity.
  - exists mean, mx, mn, sd. split; [by rewrite Hs | exact Horder].
Defined.

(** ** The aggregation as a whole *)

Section AggregateFacts.
Import Aggregator.
Context {arithmetic : Arithmetic}.
Variable aggregateGroupedResults : gmap string (list IResult) → list IAggregateResult.

Lemma aggregateGroup_abrupt (heap : gmap nat IResult)
    (groupedAggregates : gmap string (list nat)) (message : string)
    (entries : list (string * list nat)) :
  foldl (aggregateGroup heap groupedAggregates) (Abrupt message) entries
  = Abrupt message.
Proof. induction entries as [|entry entries IH]; [done|]. by cbn [foldl aggregateGroup]. Qed.

Lemma aggregateGroup_fold (heap : gmap nat IResult)
    (groupedAggregates : gmap string (list nat))
    (entries : list (string * list nat)) (before after : list IAggregateResult) :
  foldl (aggregateGroup heap groupedAggregates) (Normal before) entries = Normal after →
  length after = length before
  ∧ ∀ i b, before !! i = Some b →
      ∃ a, after !! i = Some a
           ∧ (a = b ∨ ∃ s, a = writeStatistics s b).
Proof.
  revert before. induction entries as [|entry entries IH]; intros before.
  - intros [= <-]. split; [done|]. intros i b Hb. exists b. by split; [|left].
  - cbn [foldl]. unfold aggregateGroup at 2.
    destruct (httpRequestsStatistics _) as [s|]; [|apply IH].
    destruct (groupedAggregates !! entry.1) as [[|target others]|]; cbn [head];
      [by rewrite aggregateGroup_abrupt| |
       by destruct (Prototype.isInherited entry.1); rewrite aggregateGroup_abrupt].
    intros Hrest. destruct (IH _ Hrest) as [Hlength Hafter].
    rewrite length_alter in Hlength. split; [done|].
    intros i b Hb. destruct (decide (target = i)) as [->|Hne].
    + destruct (Hafter i (writeStatistics s b)) as (a & Ha & Hcase).
      { by rewrite list_lookup_alter_eq, Hb. }
      exists a. split; [done|]. right. destruct Hcase as [->|[s' ->]]; by eexists.
    + apply Hafter. by rewrite list_lookup_alter_ne.
Qed.

(** X18: when [aggregateResults] completes, it returns the aggregates of
    the base class in the same number and order; each of them is either
    untouched or has had its four httpRequests fields written together (so
    its name and position are kept). *)
Theorem aggregateResults_preserves (heap heap' : gmap nat IResult)
    (results : list nat) (aggregates : list IAggregateResult) :
  aggregateResults aggregateGroupedResults heap results = (heap', Normal aggregates) →
  ∃ grouped,
    length aggregates = length (aggregateGroupedResults grouped)
    ∧ ∀ i b, aggregateGroupedResults grouped !! i = Some b →
        ∃ a, aggregates !! i = Some a
             ∧ aggregateName a = aggregateName b
             ∧ (a = b
                ∨ ∃ s, aggregateHttpRequests a = Some (statMean s)
                       ∧ httpRequestsMax a = Some (statMax s)
                       ∧ httpRequestsMin a = Some (statMin s)
                       ∧ httpRequestsStd a = Some (statStd s)).
Proof.
  unfold aggregateResults.
  destruct (groupResults _ results) as [heap1 [groupedResults|message]]; [|done].
  destruct (groupAggregateResults _) as [groupedAggregates|message]; [|done].
  intros [= <- Hfold]. eexists.
  destruct (aggregateGroup_fold _ _ _ _ _ Hfold) as [Hlength Hafter].
  split; [exact Hlength|]. intros i b Hb.
  destruct (Hafter i b Hb) as (a & Ha & Hcase). exists a. split; [done|].
  destruct Hcase as [->|[s ->]]; [by split; [|left]|].
  split; [done|]. right. by exists s.
Qed.

Lemma assignTemplates_errors (results : list nat) (heap : gmap nat IResult) :
  (∀ l r, heap !! l = Some r → error r = true) →
  ∀ l r, assignTemplates heap results !! l = Some r → error r = true.
Proof.
  unfold assignTemplates. revert heap.
  induction results as [|result results IH]; intros heap Hfailed; [done|].
  cbn [foldl]. apply IH. intros l r. destruct (decide (result = l)) as [->|Hne].
  - rewrite lookup_alter_eq. destruct (heap !! l) as [r0|] eqn:Hr0; [|done].
    intros [= <-]. simpl. by eapply Hfailed.
  - rewrite lookup_alter_ne by done. apply Hfailed.
Qed.

Lemma groupStep_fold_errors (results : list nat)
    (st : gmap nat IResult * Completion (gmap string (list nat))) :
  (∀ l r, st.1 !! l = Some r → error r = true) →
  ∀ l r, (foldl groupStep st results).1 !! l = Some r → error r = true.
Proof.
  revert st. induction results as [|result results IH]; intros st Hst; [done|].
  cbn [foldl]. apply IH. unfold groupStep.
  destruct (st.2); [|done].
  destruct (st.1 !! result) as [r0|] eqn:Hr0; [|done]. cbn [fst].
  intros l r. destruct (decide (result = l)) as [->|Hne].
  - rewrite lookup_insert_eq. intros [= <-]. simpl. by eapply Hst.
  - rewrite lookup_insert_ne by done. apply Hst.
Qed.

(** X19: when every record carries an error flag and the two groupings
    complete (no template and no aggregate is named like a property
    inherited from [Object.prototype]), [aggregateResults] completes and
    returns the aggregates that the base class made of the groups, as they
    are: no httpRequests statistics are written for any group. *)
Theorem aggregateResults_all_failed (heap heap' : gmap nat IResult)
    (results : list nat) (groupedResults : gmap string (list nat)) :
  (∀ l r, heap !! l = Some r → error r = true) →
  groupResults (assignTemplates heap results) results = (heap', Normal groupedResults) →
  Forall (λ a, Prototype.isInherited (aggregateName a) = false)
         (aggregateGroupedResults (members heap' groupedResults)) →
  aggregateResults aggregateGroupedResults heap results
  = (heap', Normal (aggregateGroupedResults (members heap' groupedResults))).
Proof.
  intros Hfailed Hgrouped Hnames. unfold aggregateResults.
  pose proof (groupStep_fold_errors results (assignTemplates heap results, Normal ∅)
                (assignTemplates_errors results heap Hfailed)) as Hheap'.
  fold (groupResults (assignTemplates heap results) results) in Hheap'.
  rewrite Hgrouped in *. cbn [fst] in Hheap'.
  destruct (groupAggregate_fold
              (imap pair (aggregateGroupedResults (members heap' groupedResults))) ∅)
    as (groupedAggregates & Hnormal & _).
  { by apply (imap_pair_names _ (λ k, Prototype.isInherited k = false) 0). }
  fold (groupAggregateResults (aggregateGroupedResults (members heap' groupedResults)))
    in Hnormal.
  rewrite Hnormal. f_equal.
  generalize (aggregateGroupedResults (members heap' groupedResults)).
  generalize (map_to_list groupedResults).
  intros entries aggregates.
  induction entries as [|entry entries IH]; [done|].
  cbn [foldl]. unfold aggregateGroup at 2.
  rewrite httpRequestsStatistics_all_failed; [exact IH|].
  apply Forall_forall. intros r Hr.
  apply list_elem_of_omap in Hr as (l & _ & Hl). by eapply Hheap'.
Qed.
End AggregateFacts.

Lemma aggregateResults_preserves_witness :
  ∃ heap' aggregates,
    Aggregator.aggregateResults (arithmetic := Aggregator.exact) Cases.oneAggregate
      Cases.executions [1; 2; 3]%nat
    = (heap', Normal aggregates)
    ∧ length aggregates = 1%nat.
Proof.
  eexists _, _. split; [reflexivity|].
  destruct (aggregateResults_preserves (arithmetic := Aggregator.exact)
              Cases.oneAggregate Cases.executions _
              [1; 2; 3]%nat _ eq_refl) as (grouped & Hlength & _).
  exact Hlength.
Defined.

Lemma aggregateResults_all_failed_witness :
  ∃ heap' groupedResults,
    Aggregator.aggregateResults (arithmetic := Aggregator.exact) Cases.oneAggregate
      Cases.failures [1]%nat
    = (heap',
       Normal (Cases.oneAggregate (Aggregator.members heap' groupedResults))).
Proof.
  eexists _, _.
  apply (aggregateResults_all_failed (arithmetic := Aggregator.exact)
           Cases.oneAggregate Cases.failures _ [1]%nat _).
  - intros l r. unfold Cases.failures.
    destruct (decide (l = 1%nat)) as [->|Hne].
    + rewrite lookup_singleton_eq. by intros [= <-].
    + by rewrite lookup_singleton_ne.
  - reflexivity.
  - by repeat constructor.
Defined.

(** ** The metadata loader, continued *)

Section MetadataFacts.
Import Loader FileNames.

Lemma getField_setField (key : string) (value : json) (base : object) :
  getField key (setField key value base) = Some value
  ∧ ∀ k, k ≠ key → getField k (setField key value base) = getField k base.
Proof.
  induction base as [|[k0 v0] base [IHset IHother]]; simpl.
  - rewrite String.eqb_refl. split; [done|]. intros k Hk.
    destruct (String.eqb_spec key k); [congruence|done].
  - destruct (String.eqb_spec k0 key) as [->|Hne]; simpl.
    + rewrite String.eqb_refl. split; [done|]. intros k Hk.
      destruct (String.eqb_spec key k); [congruence|done].
    + destruct (String.eqb_spec k0 key); [done|]. split; [done|].
      intros k Hk. destruct (String.eqb_spec k0 k); [done|]. by apply IHother.
Qed.

(** X20: a metadata file whose last array-valued field is [key] (not the
    empty name) yields one metadata object per element of that array, in
    order; the j-th object holds the j-th element under the key without its
    last character, every other key reads as in the non-array fields of the
    file, and those are exactly the fields of the file whose value is not an
    array. *)
Theorem loadMetadataFile_objects (parsed : object) (key : string)
    (elements : list json) :
  last (arrayFields parsed) = Some (key, elements) →
  key ≠ "" →
  ∃ objects,
    loadMetadataFile parsed = Normal objects
    ∧ length objects = length elements
    ∧ (∀ j element, elements !! j = Some element →
         ∃ obj, objects !! j = Some obj
                ∧ getField (dropLast key) obj = Some element
                ∧ ∀ k, k ≠ dropLast key → getField k obj = getField k (baseFields parsed))
    ∧ (∀ k v, (k, v) ∈ baseFields parsed ↔ (k, v) ∈ parsed ∧ isArray v = false).
Proof.
  intros Hlast Hkey. unfold loadMetadataFile.
  rewrite findArrayField_last, Hlast. cbn [arrayValue arrayKey].
  destruct (String.eqb_spec key ""); [done|].
  eexists. split; [reflexivity|]. split; [apply length_map|]. split.
  - intros j element Hj. eexists. split.
    + change (map ?f elements) with (f <$> elements).
      by rewrite list_lookup_fmap, Hj.
    + apply getField_setField.
  - intros k v. unfold baseFields. rewrite list_elem_of_filter. cbn [snd].
    destruct (isArray v); simpl; split; intros [? ?]; done.
Qed.

(** X21: two edges of the array check. A file whose last array-valued field
    has the empty name is rejected as having no array entry, although it has
    one; and a file whose last array-valued field is an empty array is
    accepted and contributes no metadata object. *)
Theorem loadMetadataFile_edges (parsed : object) (elements : list json)
    (key : string) :
  (last (arrayFields parsed) = Some ("", elements) →
   loadMetadataFile parsed = Abrupt "queries metadata has no array entry")
  ∧ (last (arrayFields parsed) = Some (key, []) → key ≠ "" →
     loadMetadataFile parsed = Normal []).
Proof.
  unfold loadMetadataFile. rewrite findArrayField_last. split.
  - by intros ->.
  - intros -> Hkey. cbn [arrayValue arrayKey].
    by destruct (String.eqb_spec key "").
Qed.

Lemma pushOne_abrupt (key message : string) (objects : list object) :
  foldl (pushOne key) (Abrupt message) objects = Abrupt message.
Proof. induction objects as [|obj objects IH]; [done|]. exact IH. Qed.

Lemma pushAll_spec (queryMetadata : gmap string (list object)) (key : string)
    (objects : list object) :
  pushAll queryMetadata key objects
  = match objects, queryMetadata !! key with
    | [], _ => Normal queryMetadata
    | _ :: _, Some stored => Normal (<[key := stored ++ objects]> queryMetadata)
    | _ :: _, None =>
        if Prototype.isInherited key then
          Abrupt (Prototype.notAFunction "(intermediate value).push")
        else Normal (<[key := objects]> queryMetadata)
    end.
Proof.
  unfold pushAll. revert queryMetadata.
  induction objects as [|obj objects IH]; intros queryMetadata; [done|].
  cbn [foldl]. unfold pushOne at 2.
  destruct (queryMetadata !! key) as [stored|] eqn:Hstored.
  - rewrite IH, lookup_insert_eq. destruct objects as [|next objects]; [done|].
    by rewrite insert_insert_eq, <- app_assoc.
  - destruct (Prototype.isInherited key); [apply pushOne_abrupt|].
    rewrite IH, lookup_insert_eq. destruct objects as [|next objects]; [done|].
    by rewrite insert_insert_eq.
Qed.

(** X22: loading one metadata file changes the metadata map only under the
    key of that file: the objects of the file are appended, in order, to
    what was stored there (so two files that are cleaned to the same name
    share one list), and a file with an empty array leaves the map as it
    is. A file without array field makes the load throw, and so does a file
    with objects whose key is not in the map but is named like a property
    inherited from [Object.prototype]. *)
Theorem loadMetadataEntry_spec (queryMetadata : gmap string (list object))
    (prefix name extension : string) (indicators : list string) (parsed : object) :
  let key := prefix +:+ removeMatches (replaceFirst extension name) indicators in
  loadMetadataEntry queryMetadata prefix name extension indicators parsed
  = match loadMetadataFile parsed with
    | Normal [] => Normal queryMetadata
    | Normal objects =>
        match queryMetadata !! key with
        | Some stored => Normal (<[key := stored ++ objects]> queryMetadata)
        | None =>
            if Prototype.isInherited key then
              Abrupt (Prototype.notAFunction "(intermediate value).push")
            else Normal (<[key := objects]> queryMetadata)
        end
    | Abrupt message => Abrupt message
    end.
Proof.
  intros key. unfold loadMetadataEntry.
  destruct (loadMetadataFile parsed) as [objects|message]; [|done].
  fold key. rewrite pushAll_spec. by destruct objects.
Qed.
End MetadataFacts.

(** ** File names *)

Section FileNameFacts.
Import FileNames.

Lemma app_String (c : Ascii.ascii) (a b : string) :
  String c a +:+ b = String c (a +:+ b).
Proof. done. Qed.

Lemma prefix_app (pattern s : string) :
  String.prefix pattern s = true ↔ ∃ after, s = pattern +:+ after.
Proof.
  revert s. induction pattern as [|a pattern IH]; intros s.
  - split; [intros _; by exists s | intros _; by destruct s].
  - destruct s as [|b s]; simpl.
    + split; [done|]. by intros [after ?].
    + destruct (Ascii.ascii_dec a b) as [->|Hne].
      * rewrite IH. split; intros [after Hafter]; exists after;
          rewrite app_String in *; congruence.
      * split; [done|]. intros [after Hafter]. rewrite app_String in Hafter.
        congruence.
Qed.

Lemma skip_app (pattern after : string) :
  skip (String.length pattern) (pattern +:+ after) = after.
Proof. induction pattern as [|a pattern IH]; [by destruct after|done]. Qed.

Lemma includes_cons (pattern : string) (c : Ascii.ascii) (s : string) :
  includes pattern (String c s)
  = String.prefix pattern (String c s) || includes pattern s.
Proof. done. Qed.

Lemma includes_iff (pattern s : string) :
  includes pattern s = true ↔ ∃ before after, s = before +:+ pattern +:+ after.
Proof.
  split.
  - induction s as [|c s IH].
    + change (includes pattern "") with (String.prefix pattern "" || false).
      rewrite orb_false_r. intros [after Hafter]%prefix_app. by exists "", after.
    + rewrite includes_cons. intros [Hp|Hs]%orb_true_iff.
      * apply prefix_app in Hp as [after ->]. by exists "", after.
      * destruct (IH Hs) as (before & after & ->). by exists (String c before), after.
  - intros (before & after & ->). induction before as [|c before IH].
    + assert (String.prefix pattern (pattern +:+ after) = true) as Hp
        by (apply prefix_app; by eexists).
      change ("" +:+ pattern +:+ after) with (pattern +:+ after).
      destruct (pattern +:+ after) as [|c rest].
      * change (includes pattern "") with (String.prefix pattern "" || false).
        by rewrite Hp.
      * by rewrite includes_cons, Hp.
    + by rewrite app_String, includes_cons, IH, orb_true_r.
Qed.

Lemma replaceFirst_cons (pattern : string) (c : Ascii.ascii) (s : string) :
  replaceFirst pattern (String c s)
  = if String.prefix pattern (String c s)
    then skip (String.length pattern) (String c s)
    else String c (replaceFirst pattern s).
Proof. done. Qed.

(** [replaceFirst] removes the leftmost occurrence. *)
Lemma replaceFirst_spec (pattern s : string) :
  includes pattern s = true →
  ∃ before after,
    s = before +:+ pattern +:+ after
    ∧ replaceFirst pattern s = before +:+ after
    ∧ ∀ before' after', s = before' +:+ pattern +:+ after' →
        (String.length before ≤ String.length before')%nat.
Proof.
  induction s as [|c s IH].
  - change (includes pattern "") with (String.prefix pattern "" || false).
    rewrite orb_false_r. intros Hp.
    destruct (proj1 (prefix_app _ _) Hp) as [after Hafter].
    exists "", after. split; [done|]. split; [|simpl; lia].
    change (replaceFirst pattern "")
      with (if String.prefix pattern "" then skip (String.length pattern) "" else "").
    rewrite Hp. destruct pattern as [|a pattern];
      [|by rewrite app_String in Hafter].
    exact Hafter.
  - rewrite includes_cons, replaceFirst_cons.
    destruct (String.prefix pattern (String c s)) eqn:Hp.
    + intros _. destruct (proj1 (prefix_app _ _) Hp) as [after Hafter].
      exists "", after. split; [done|]. split; [|simpl; lia].
      rewrite Hafter. apply skip_app.
    + simpl. intros Hs. destruct (IH Hs) as (before & after & -> & Hr & Hmin).
      exists (String c before), after. split; [done|]. split; [by rewrite Hr|].
      intros [|c' before'] after' Heq.
      * assert (String.prefix pattern (String c (before +:+ pattern +:+ after)) = true)
          by (apply prefix_app; by exists after').
        congruence.
      * injection Heq as _ Heq. simpl. apply Hmin in Heq. lia.
Qed.

Lemma replaceFirst_absent (pattern s : string) :
  includes pattern s = false → replaceFirst pattern s = s.
Proof.
  induction s as [|c s IH].
  - change (includes pattern "") with (String.prefix pattern "" || false).
    change (replaceFirst pattern "")
      with (if String.prefix pattern "" then skip (String.length pattern) "" else "").
    rewrite orb_false_r. by intros ->.
  - rewrite includes_cons, replaceFirst_cons.
    intros [-> Hs]%orb_false_iff. by rewrite IH.
Qed.

Lemma length_app_string (a b : string) :
  String.length (a +:+ b) = (String.length a + String.length b)%nat.
Proof. induction a as [|c a IH]; simpl; [done|by rewrite IH]. Qed.

(** X23: with a single indicator that occurs in the file name,
    [removeMatches] removes its leftmost occurrence and nothing else: the
    name is split around that occurrence and the two parts are joined, and
    no occurrence starts further left. *)
Theorem removeMatches_first_occurrence (filename indicator : string) :
  includes indicator filename = true →
  ∃ before after,
    filename = before +:+ indicator +:+ after
    ∧ removeMatches filename [indicator] = before +:+ after
    ∧ ∀ before' after', filename = before' +:+ indicator +:+ after' →
        (String.length before ≤ String.length before')%nat.
Proof.
  intros Hin. unfold removeMatches. cbn [foldl]. rewrite Hin.
  by apply replaceFirst_spec.
Qed.

(** X24: [removeMatches] never lengthens a file name, and a name in which
    none of the indicators occurs is returned as it is. *)
Theorem removeMatches_unchanged (filename : string) (indicators : list string) :
  (String.length (removeMatches filename indicators) ≤ String.length filename)%nat
  ∧ (Forall (λ indicator, includes indicator filename = false) indicators →
     removeMatches filename indicators = filename).
Proof.
  unfold removeMatches. split.
  - revert filename. induction indicators as [|indicator indicators IH];
      intros filename; [done|].
    cbn [foldl]. destruct (includes indicator filename) eqn:Hin; [|apply IH].
    etrans; [apply IH|].
    destruct (replaceFirst_spec _ _ Hin) as (before & after & -> & -> & _).
    rewrite !length_app_string. lia.
  - intros Hnone. induction Hnone as [|indicator indicators Hout _ IH]; [done|].
    cbn [foldl]. by rewrite Hout.
Qed.
End FileNameFacts.

Lemma removeMatches_first_occurrence_witness :
  ∃ before after,
    "queries.metadata" = before +:+ ".metadata" +:+ after
    ∧ FileNames.removeMatches "queries.metadata" [".metadata"] = before +:+ after.
Proof.
  destruct (removeMatches_first_occurrence "queries.metadata" ".metadata" eq_refl)
    as (before & after & Hsplit & Hresult & _).
  by exists before, after.
Defined.

Lemma loadMetadataFile_objects_witness :
  ∃ objects,
    Loader.loadMetadataFile Sample.twoArrays = Normal objects
    ∧ length objects = 2%nat.
Proof.
  destruct (loadMetadataFile_objects Sample.twoArrays "ys"
              [Loader.JsonNumber 2; Loader.JsonNumber 3] eq_refl)
    as (objects & Hload & Hlength & _).
  - discriminate.
  - by exists objects.
Defined.

(** ** Query files *)

Section QueryFileFacts.
Import FileNames QueryFiles.

Lemma isNewline_spec (c : Ascii.ascii) :
  isNewline c = true ↔ c = Ascii.ascii_of_nat 10.
Proof.
  unfold isNewline. rewrite Nat.eqb_eq. split.
  - intros Hc. by rewrite <- (Ascii.ascii_nat_embedding c), Hc.
  - by intros ->.
Qed.

Lemma prefix_querySeparator (s : string) :
  String.prefix querySeparator s
  = match s with
    | String c (String c' _) => isNewline c && isNewline c'
    | _ => false
    end.
Proof.
  destruct s as [|c [|c' s]]; [done| |]; unfold querySeparator; cbn [String.prefix].
  - by destruct (Ascii.ascii_dec _ c).
  - destruct (Ascii.ascii_dec _ c) as [<-|Hc].
    + destruct (Ascii.ascii_dec _ c') as [<-|Hc']; [by destruct s|].
      symmetry. apply andb_false_iff. right.
      apply not_true_is_false. by intros ?%isNewline_spec.
    + symmetry. apply andb_false_iff. left.
      apply not_true_is_false. by intros ?%isNewline_spec.
Qed.

Lemma includes_nil (pattern : string) :
  includes pattern "" = String.prefix pattern "".
Proof. simpl. apply orb_false_r. Qed.

Lemma splitSeparator_cons (c : Ascii.ascii) (rest : string) :
  splitSeparator (String c rest)
  = match rest with
    | String c' rest' =>
        if isNewline c && isNewline c' then "" :: splitSeparator rest'
        else extend c (splitSeparator rest)
    | EmptyString => extend c (splitSeparator rest)
    end.
Proof. done. Qed.

(** What is known of the pieces of [s]: none holds a blank line, every one
    consists of code units of [s], and the first one starts like [s]. *)
Definition pieces_ok (s : string) : Prop :=
  Forall (λ piece, includes querySeparator piece = false) (splitSeparator s)
  ∧ (isBlank s = true → Forall (λ piece, isBlank piece = true) (splitSeparator s))
  ∧ ∃ piece pieces,
      splitSeparator s = piece :: pieces
      ∧ match piece with
        | EmptyString => True
        | String d _ => ∃ r, s = String d r
        end.

Lemma extend_ok (c : Ascii.ascii) (rest : string) :
  String.prefix querySeparator (String c rest) = false →
  pieces_ok rest →
  splitSeparator (String c rest) = extend c (splitSeparator rest) →
  pieces_ok (String c rest).
Proof.
  intros Hstart (Hsep & Hblank & piece & pieces & Hsplit & Hhead) Heq.
  unfold pieces_ok. rewrite Heq, Hsplit in *. cbn [extend].
  apply Forall_cons in Hsep as [Hpiece Hpieces]. split; [|split].
  - constructor; [|done]. rewrite includes_cons, Hpiece, orb_false_r.
    rewrite prefix_querySeparator in *.
    destruct piece as [|d piece]; [done|]. destruct Hhead as [r ->]. done.
  - cbn [isBlank]. intros [Hc Hrest]%andb_true_iff.
    apply Hblank, Forall_cons in Hrest as [Hp Hps].
    constructor; [|done]. cbn [isBlank]. by rewrite Hc, Hp.
  - exists (String c piece), pieces. split; [done|]. by exists rest.
Qed.

Lemma splitSeparator_ok (s : string) : pieces_ok s ∧ ∀ c, pieces_ok (String c s).
Proof.
  induction s as [|c' s [IHs IHcs]].
  - assert (Hnil : pieces_ok "").
    { split; [by repeat constructor|]. split; [by repeat constructor|].
      by exists "", []. }
    split; [done|]. intros c. apply extend_ok; [|done|done].
    by rewrite prefix_querySeparator.
  - split; [apply IHcs|]. intros c.
    destruct (isNewline c && isNewline c') eqn:Hnl.
    + unfold pieces_ok. rewrite splitSeparator_cons, Hnl.
      destruct IHs as (Hsep & Hblank & _). split; [|split].
      * constructor; [|done]. by rewrite includes_nil.
      * cbn [isBlank]. intros [_ [_ Hs]%andb_true_iff]%andb_true_iff.
        constructor; [done|by apply Hblank].
      * by exists "", (splitSeparator s).
    + apply extend_ok; [by rewrite prefix_querySeparator|apply IHcs|].
      by rewrite splitSeparator_cons, Hnl.
Qed.

Lemma trimStart_spec (s : string) :
  startsWithSpace (trimStart s) = false
  ∧ (isBlank s = true → trimStart s = "")
  ∧ ∃ removed, s = removed +:+ trimStart s.
Proof.
  induction s as [|c s (IHstart & IHblank & removed & IHsplit)].
  - split; [done|]. split; [done|]. by exists "".
  - simpl. destruct (isWhiteSpace c) eqn:Hc; simpl.
    + split; [done|]. split; [done|]. exists (String c removed).
      by rewrite app_String, <- IHsplit.
    + rewrite Hc. split; [done|]. split; [done|]. by exists "".
Qed.

Lemma trimEnd_cons (c : Ascii.ascii) (rest : string) :
  trimEnd (String c rest)
  = match trimEnd rest with
    | EmptyString => if isWhiteSpace c then "" else String c ""
    | kept => String c kept
    end.
Proof. done. Qed.

Lemma trimEnd_spec (s : string) :
  endsWithSpace (trimEnd s) = false
  ∧ (startsWithSpace s = false → startsWithSpace (trimEnd s) = false)
  ∧ (isBlank s = true → trimEnd s = "")
  ∧ ∃ removed, s = trimEnd s +:+ removed.
Proof.
  induction s as [|c s (IHend & _ & IHblank & removed & IHsplit)].
  - split; [done|]. split; [done|]. split; [done|]. by exists "".
  - rewrite trimEnd_cons. destruct (trimEnd s) as [|d kept] eqn:Hkept.
    + destruct (isWhiteSpace c) eqn:Hc.
      * split; [done|]. split; [done|]. split; [done|]. exists (String c removed).
        change ("" +:+ String c removed) with (String c removed).
        change ("" +:+ removed) with removed in IHsplit. by rewrite IHsplit.
      * split; [by simpl; rewrite Hc|]. split; [by simpl; rewrite Hc|].
        split; [by simpl; rewrite Hc|]. exists removed.
        change ("" +:+ removed) with removed in IHsplit.
        by rewrite app_String, IHsplit.
    + split; [done|]. split; [done|]. split.
      * simpl. intros [_ Hs]%andb_true_iff. by apply IHblank in Hs.
      * exists removed. by rewrite app_String, <- IHsplit.
Qed.

Lemma append_assoc (a b c : string) : (a +:+ b) +:+ c = a +:+ b +:+ c.
Proof. induction a as [|x a IH]; [done|]. by rewrite !app_String, IH. Qed.

Lemma trim_spec (s : string) :
  startsWithSpace (trim s) = false
  ∧ endsWithSpace (trim s) = false
  ∧ (isBlank s = true → trim s = "")
  ∧ (includes querySeparator s = false → includes querySeparator (trim s) = false).
Proof.
  unfold trim.
  destruct (trimStart_spec s) as (Hstart & Hblank & before & Hbefore).
  destruct (trimEnd_spec (trimStart s)) as (Hend & Hkeep & Hblank' & after & Hafter).
  split; [by apply Hkeep|]. split; [done|]. split.
  - intros Hs. by rewrite (Hblank Hs).
  - intros Hnone. apply not_true_is_false. intros Hin.
    apply includes_iff in Hin as (a & b & Hin).
    assert (includes querySeparator s = true); [|congruence].
    apply includes_iff. exists (before +:+ a), (b +:+ after).
    rewrite Hbefore, Hafter, Hin. by rewrite !append_assoc.
Qed.

(** X25: every query loaded from a file is non-empty, neither starts nor
    ends with white space, and contains no blank line (no two consecutive
    line feeds). *)
Theorem parseQueries_trimmed (fileContents query : string) :
  query ∈ parseQueries fileContents →
  query ≠ ""
  ∧ startsWithSpace query = false
  ∧ endsWithSpace query = false
  ∧ includes querySeparator query = false.
Proof.
  unfold parseQueries. intros [Hlength Hin]%list_elem_of_filter.
  change (map trim ?l) with (trim <$> l) in Hin.
  apply list_elem_of_fmap in Hin as (piece & -> & Hpiece).
  destruct (splitSeparator_ok fileContents) as [(Hsep & _) _].
  rewrite Forall_forall in Hsep.
  destruct (trim_spec piece) as (Hstart & Hend & _ & Hnone).
  split; [intros Hempty; rewrite Hempty in Hlength; simpl in Hlength; lia|].
  split; [done|]. split; [done|]. by apply Hnone, Hsep.
Qed.

Lemma parseQueries_blank (fileContents : string) :
  isBlank fileContents = true → parseQueries fileContents = [].
Proof.
  intros Hblank. unfold parseQueries.
  destruct (splitSeparator_ok fileContents) as [(_ & Hpieces & _) _].
  specialize (Hpieces Hblank).
  induction Hpieces as [|piece pieces Hpiece _ IH]; [done|].
  cbn [map]. destruct (trim_spec piece) as (_ & _ & Htrim & _).
  rewrite (Htrim Hpiece). rewrite filter_cons_False by (simpl; lia). exact IH.
Qed.

(** X26: a file that holds nothing but white space (in particular an empty
    file) yields no query at all, so its query set is stored with an empty
    list; whatever was stored under the key of the file is replaced, and
    the other query sets are left alone. The key [__proto__] is the
    exception: nothing is stored under it, none of the query sets changes,
    and the empty list becomes the prototype of the object. *)
Theorem loadQueryEntry_blank (querySets : QuerySets)
    (prefix name extension fileContents : string) :
  isBlank fileContents = true →
  let key := prefix +:+ replaceFirst extension name in
  let after := loadQueryEntry querySets prefix name extension fileContents in
  (key ≠ "__proto__" →
   own after !! key = Some []
   ∧ (∀ other, other ≠ key → own after !! other = own querySets !! other)
   ∧ prototype after = prototype querySets)
  ∧ (key = "__proto__" →
     own after = own querySets ∧ prototype after = Some []).
Proof.
  intros Hblank key after. subst after. unfold loadQueryEntry, assign. fold key.
  rewrite (parseQueries_blank fileContents Hblank).
  destruct (String.eqb_spec key "__proto__") as [Heq|Hne]; split; try done.
  intros _. cbn [own prototype]. split; [by rewrite lookup_insert_eq|].
  split; [|done]. intros other Hother. by rewrite lookup_insert_ne.
Qed.
End QueryFileFacts.

Lemma parseQueries_trimmed_witness :
  "ASK {}" ∈ QueryFiles.parseQueries Cases.queryFile
  ∧ "ASK {}" ≠ ""
  ∧ QueryFiles.startsWithSpace "ASK {}" = false
  ∧ QueryFiles.endsWithSpace "ASK {}" = false
  ∧ FileNames.includes QueryFiles.querySeparator "ASK {}" = false.
Proof.
  assert (Hin : "ASK {}" ∈ QueryFiles.parseQueries Cases.queryFile).
  { by apply (list_elem_of_lookup_2 _ 1). }
  split; [exact Hin|].
  exact (parseQueries_trimmed Cases.queryFile "ASK {}" Hin).
Defined.

Lemma loadQueryEntry_blank_witness :
  QueryFiles.own
    (QueryFiles.loadQueryEntry
       {| QueryFiles.own := {[ "set" := ["ASK {}"] ]}; QueryFiles.prototype := None |}
       "" "set.sparql" ".sparql" Cases.blankFile) !! "set"
  = Some [].
Proof.
  refine (proj1 (proj1 (loadQueryEntry_blank
                          {| QueryFiles.own := {[ "set" := ["ASK {}"] ]};
                             QueryFiles.prototype := None |}
                          "" "set.sparql" ".sparql" Cases.blankFile eq_refl) _)).
  by vm_compute.
Defined.
